(** * floofspectools: RFC 8955 ordering and RFC 8955/9117 feasibility

    A shallow embedding of package [flowspecinternal]:
    - [types.go]     : the value types,
    - [ordering.go]  : [CompareFlowSpecKey] and [SortFlowSpecs],
    - [validator.go] : [ValidateFeasibility],
    together with the parts of Go's [net/netip], [net] and [sort] packages
    that these functions call. *)

From Stdlib Require Import ZArith List Bool Lia Permutation.
From Stdlib Require Strings.String Structures.OrderedTypeEx.
From Stdlib Require Import Strings.Byte.
Import ListNotations.
Open Scope Z_scope.

(** ** Go runtime outcomes

    A Go call either returns a value or panics (here: a nil-pointer
    dereference).  [go A] is the error monad threading that through. *)

Inductive go (A : Type) : Type :=
| ret (a : A)
| panic.
Arguments ret {A} a.
Arguments panic {A}.

Definition go_bind {A B : Type} (m : go A) (k : A -> go B) : go B :=
  match m with
  | ret a => k a
  | panic => panic
  end.

Definition go_map {A B : Type} (f : A -> B) (m : go A) : go B :=
  go_bind m (fun a => ret (f a)).

Notation "x <- m ;; k" := (go_bind m (fun x => k))
  (at level 61, m at next level, right associativity).

(** ** Package net/netip (Go standard library)

    [Addr] is a 128-bit value split in two 64-bit halves plus a tag [z]
    that is [z0] for the zero Addr, [z4] for IPv4 and [z6 zone] for IPv6
    ([z6 ""] is Go's [z6noz]).  An IPv4 address is stored in the low 32 bits
    under the mapped marker [0xffff].  [Prefix] keeps the address and the
    prefix length plus one, zero meaning invalid. *)

Module netip.

Inductive zone : Type :=
| z0
| z4
| z6 (zoneV6 : String.string).

Record uint128 : Type := { hi : Z; lo : Z }.

Record Addr : Type := { addr : uint128; z : zone }.

Record Prefix : Type := { ip : Addr; bitsPlusOne : Z }.

Definition uint64_max : Z := 2 ^ 64 - 1.

(** Go shifts of a uint64 by an int count: a count of 64 or more gives 0. *)
Definition shr64 (x n : Z) : Z := if 64 <=? n then 0 else Z.shiftr x n.
Definition shl64 (x n : Z) : Z :=
  if 64 <=? n then 0 else (Z.shiftl x n) mod 2 ^ 64.
Definition not64 (x : Z) : Z := Z.lxor x uint64_max.

Definition AddrFrom4 (a b c d : Z) : Addr :=
  {| addr := {| hi := 0;
                lo := Z.lor 0xffff00000000
                        (Z.lor (Z.shiftl a 24)
                           (Z.lor (Z.shiftl b 16) (Z.lor (Z.shiftl c 8) d))) |};
     z := z4 |}.

Definition BitLen (ip : Addr) : Z :=
  match z ip with
  | z0 => 0
  | z4 => 32
  | z6 _ => 128
  end.

Definition Is4 (ip : Addr) : bool :=
  match z ip with z4 => true | _ => false end.

Definition Is6 (ip : Addr) : bool :=
  match z ip with z6 _ => true | _ => false end.

Definition Zone (ip : Addr) : String.string :=
  match z ip with z6 s => s | _ => String.EmptyString end.

Definition hasZone (ip : Addr) : bool :=
  match z ip with
  | z6 s => negb (String.eqb s String.EmptyString)
  | _ => false
  end.

Definition isZero (ip : Addr) : bool :=
  match z ip with z0 => true | _ => false end.

Definition withoutZone (ip : Addr) : Addr :=
  match z ip with
  | z6 _ => {| addr := addr ip; z := z6 String.EmptyString |}
  | _ => ip
  end.

(** [PrefixFrom]: an out-of-range length or a zero address gives an
    invalid prefix; the zone is dropped. *)
Definition PrefixFrom (ip : Addr) (bits : Z) : Prefix :=
  {| ip := withoutZone ip;
     bitsPlusOne :=
       if negb (isZero ip) && (0 <=? bits) && (bits <=? BitLen ip)
       then bits + 1 else 0 |}.

Definition Bits (p : Prefix) : Z := bitsPlusOne p - 1.

Definition Addr_of (p : Prefix) : Addr := ip p.

Definition IsValid (p : Prefix) : bool := 0 <? bitsPlusOne p.

Definition mask6 (n : Z) : uint128 :=
  {| hi := not64 (shr64 uint64_max n);
     lo := shl64 uint64_max (128 - n) |}.

Definition xor128 (u v : uint128) : uint128 :=
  {| hi := Z.lxor (hi u) (hi v); lo := Z.lxor (lo u) (lo v) |}.

Definition and128 (u v : uint128) : uint128 :=
  {| hi := Z.land (hi u) (hi v); lo := Z.land (lo u) (lo v) |}.

Definition isZero128 (u : uint128) : bool := (hi u =? 0) && (lo u =? 0).

(** [Prefix.Contains]: false for an invalid prefix, a zoned address or
    differing families; otherwise the leading [Bits p] bits agree. *)
Definition Contains (p : Prefix) (a : Addr) : bool :=
  if negb (IsValid p) || hasZone a then false
  else
    let f1 := BitLen (ip p) in
    let f2 := BitLen a in
    if (f1 =? 0) || (f2 =? 0) || negb (f1 =? f2) then false
    else if Is4 a then
      (Z.shiftr (Z.lxor (lo (addr a)) (lo (addr (ip p))))
                (Z.land (32 - Bits p) 63)) mod 2 ^ 32 =? 0
    else
      isZero128 (and128 (xor128 (addr a) (addr (ip p))) (mask6 (Bits p))).

Definition string_lt (s t : String.string) : bool :=
  match String.compare s t with Lt => true | _ => false end.

(** [Addr.Compare]: family first, then the 128-bit value, then the zone. *)
Definition Compare (a b : Addr) : Z :=
  let f1 := BitLen a in
  let f2 := BitLen b in
  if f1 <? f2 then -1
  else if f2 <? f1 then 1
  else if hi (addr a) <? hi (addr b) then -1
  else if hi (addr b) <? hi (addr a) then 1
  else if lo (addr a) <? lo (addr b) then -1
  else if lo (addr b) <? lo (addr a) then 1
  else if Is6 a then
    if string_lt (Zone a) (Zone b) then -1
    else if string_lt (Zone b) (Zone a) then 1
    else 0
  else 0.

Definition Less (a b : Addr) : bool := Compare a b =? -1.

End netip.

(** ** types.go *)

(** [ComponentType] is a uint8. *)
Definition ComponentType : Type := Z.

Definition ComponentTypeDestinationPrefix : ComponentType := 1.
Definition ComponentTypeSourcePrefix : ComponentType := 2.
Definition ComponentTypeIpProtocol : ComponentType := 3.
Definition ComponentTypePort : ComponentType := 4.

(** [FSComponent]: [Prefix] is a pointer, [None] being nil; [Raw] is a
    byte slice (nil and empty are both [[]]). *)
Record FSComponent : Type := {
  Type_ : ComponentType;
  Prefix : option netip.Prefix;
  Raw : list byte
}.

Record FSComponentList : Type := { Components : list FSComponent }.

(** ** ordering.go *)

Definition AHasPrecedence : Z := -1.
Definition Equal : Z := 0.
Definition BHasPrecedence : Z := 1.

(** The return statements of [CompareFlowSpecKey], named by their line in
    ordering.go. *)
Inductive site : Type :=
| line24 | line27
| line37 | line40
| line51 | line56 | line61 | line64
| line76 | line79
| line90 | line93 | line97 | line100 | line102
| line107.

Definition site_value (s : site) : Z :=
  match s with
  | line24 | line37 | line51 | line61 | line76 | line90 | line97 =>
      AHasPrecedence
  | line27 | line40 | line56 | line64 | line79 | line93 | line100 | line102 =>
      BHasPrecedence
  | line107 => Equal
  end.

(** Unsigned comparison of two bytes. *)
Definition byte_ltb (x y : byte) : bool := (Byte.to_N x <? Byte.to_N y)%N.

(** How a byte loop [for j := 0; j < n; j++] ends, [n] being the common
    length of the two slices: at its first return ([araw[j] < braw[j]]), at
    its second ([braw[j] < araw[j]]), or by running to its end. *)
Inductive rawExit : Type :=
| aLower
| bLower
| loopEnd.

Fixpoint rawLoop (araw braw : list byte) : rawExit :=
  match araw, braw with
  | x :: araw', y :: braw' =>
      if byte_ltb x y then aLower
      else if byte_ltb y x then bLower
      else rawLoop araw' braw'
  | _, _ => loopEnd
  end.

Definition isPrefixType (t : ComponentType) : bool :=
  (t =? ComponentTypeDestinationPrefix) || (t =? ComponentTypeSourcePrefix).

(** The loop [for i := 0; i < alen; i++] over the two component slices,
    entered with [alen = blen]. *)
Fixpoint walk (acomps bcomps : list FSComponent) : go site :=
  match acomps, bcomps with
  | acomp :: acomps', bcomp :: bcomps' =>
      let atype := Type_ acomp in
      let btype := Type_ bcomp in
      if atype <? btype then ret line37
      else if btype <? atype then ret line40
      else if isPrefixType atype then
        match Prefix acomp, Prefix bcomp with
        | Some aprefix, Some bprefix =>
            let abits := netip.Bits aprefix in
            let bbits := netip.Bits bprefix in
            let aaddr := netip.Addr_of aprefix in
            let baddr := netip.Addr_of bprefix in
            if (abits >? bbits) && netip.Contains bprefix aaddr then ret line51
            else if (bbits >? abits) && netip.Contains aprefix baddr
            then ret line56
            else if (abits =? bbits) && netip.Less aaddr baddr then ret line61
            else if (abits =? bbits) && netip.Less baddr aaddr then ret line64
            else walk acomps' bcomps'
        | _, _ => panic
        end
      else
        let araw := Raw acomp in
        let braw := Raw bcomp in
        let alenRaw := length araw in
        let blenRaw := length braw in
        if Nat.eqb alenRaw blenRaw then
          match rawLoop araw braw with
          | aLower => ret line76
          | bLower => ret line79
          | loopEnd => walk acomps' bcomps'
          end
        else
          match rawLoop araw braw with
          | aLower => ret line90
          | bLower => ret line93
          | loopEnd =>
              (* alenRaw > blenRaw *)
              if Nat.ltb blenRaw alenRaw then ret line97
              (* blenRaw > alenRaw *)
              else if Nat.ltb alenRaw blenRaw then ret line100
              else ret line102
          end
  | _, _ => ret line107
  end.

(** [CompareFlowSpecKey], returning the return statement that was taken. *)
Definition CompareFlowSpecKey_site (a b : FSComponentList) : go site :=
  let alen := length (Components a) in
  let blen := length (Components b) in
  if Nat.ltb blen alen then ret line24 (* alen > blen *)
  else if Nat.ltb alen blen then ret line27 (* blen > alen *)
  else walk (Components a) (Components b).

Definition CompareFlowSpecKey (a b : FSComponentList) : go Z :=
  go_map site_value (CompareFlowSpecKey_site a b).

(** [sort.Slice] (Go standard library) is the one collaborator of
    [SortFlowSpecs].  It reorders the slice in place by swapping elements,
    calling [less] on two of its current elements; [less i j] of the source
    reads [list[i]] and [list[j]] from the slice being sorted, so it is given
    here as a function of the two elements.  A panic in [less] ends the
    sort. *)
Definition sortSlice : Type :=
  forall A : Type, (A -> A -> go bool) -> list A -> go (list A).

Definition sortSlice_permutes (sort_Slice : sortSlice) : Prop :=
  forall (A : Type) (less : A -> A -> go bool) (l out : list A),
    sort_Slice A less l = ret out -> Permutation l out.

Definition SortFlowSpecs (sort_Slice : sortSlice)
    (list : Datatypes.list FSComponentList)
  : go (Datatypes.list FSComponentList) :=
  sort_Slice FSComponentList
    (fun x y => go_map (fun r => r <? 0) (CompareFlowSpecKey x y)) list.

(** [insertionSortLessFunc] of package sort, which [sort.Slice] runs on a
    slice of at most 12 elements: element [i] is swapped leftwards while it
    is less than its left neighbour.  [insertLeft less x left] takes the
    part of the slice to the left of [x] nearest-first and returns the slice
    up to [x]'s old position, in order. *)
Fixpoint insertLeft {A : Type} (less : A -> A -> go bool) (x : A)
    (left : list A) : go (list A) :=
  match left with
  | [] => ret [x]
  | y :: left' =>
      b <- less x y ;;
      if b : bool then
        l <- insertLeft less x left' ;; ret (l ++ [y])
      else ret (rev left ++ [x])
  end.

Fixpoint insertionLoop {A : Type} (less : A -> A -> go bool)
    (sorted rest : list A) : go (list A) :=
  match rest with
  | [] => ret sorted
  | x :: rest' =>
      s <- insertLeft less x (rev sorted) ;; insertionLoop less s rest'
  end.

Definition insertionSortLessFunc : sortSlice :=
  fun A less l =>
    match l with
    | [] => ret []
    | x :: rest => insertionLoop less [x] rest
    end.

(** ** Package net (Go standard library): [IP] is a byte slice. *)

Module net.

Definition IP : Type := list byte.

Definition v4InV6Prefix : list byte :=
  [x00; x00; x00; x00; x00; x00; x00; x00; x00; x00; xff; xff].

Definition IPv4 (a b c d : byte) : IP := v4InV6Prefix ++ [a; b; c; d].

Fixpoint bytes_Equal (x y : list byte) : bool :=
  match x, y with
  | [], [] => true
  | b :: x', c :: y' => Byte.eqb b c && bytes_Equal x' y'
  | _, _ => false
  end.

(** [IP.Equal]: an IPv4 address and its 16-byte form are the same
    address. *)
Definition Equal (ip x : IP) : bool :=
  if Nat.eqb (length ip) (length x) then bytes_Equal ip x
  else if Nat.eqb (length ip) 4 && Nat.eqb (length x) 16 then
    bytes_Equal (firstn 12 x) v4InV6Prefix && bytes_Equal ip (skipn 12 x)
  else if Nat.eqb (length ip) 16 && Nat.eqb (length x) 4 then
    bytes_Equal (firstn 12 ip) v4InV6Prefix && bytes_Equal (skipn 12 ip) x
  else false.

End net.

(** ** types.go, continued: the values of the feasibility check *)

Module FlowSpecRoute.
Record t : Type := {
  DestPrefix : option netip.Prefix;
  FromEBGP : bool;
  NeighborAS : Z;
  ASPath : list Z;
  OriginatorID : net.IP
}.
End FlowSpecRoute.

Module UnicastRoute.
Record t : Type := {
  Prefix : netip.Prefix;
  NeighborAS : Z;
  ASPath : list Z;
  OriginatorID : net.IP
}.
End UnicastRoute.

(** [UnicastRIB] is an interface; [BestPath] returns a pointer and
    [MoreSpecifics] a slice of pointers, [None] being nil. *)
Record UnicastRIB : Type := {
  BestPath : netip.Prefix -> option UnicastRoute.t;
  MoreSpecifics : netip.Prefix -> list (option UnicastRoute.t)
}.

(** [ASPathPolicy] is an interface with the method [Allows]. *)
Definition ASPathPolicy : Type := option (list Z -> bool).

Record Config : Type := {
  AllowNoDestPrefix : bool;
  EnableEmptyOrConfed : bool;
  ASPathPolicy_ : ASPathPolicy
}.

(** ** validator.go *)

Inductive error : Type :=
| ErrNoDestinationPrefix
| ErrNoBestUnicast
| ErrOriginatorValidationFailed
| ErrMoreSpecificFromOtherNeighbor
| ErrLeftMostASMismatch.

(** The loop [for _, r := range moreSpecifics]: [Some e] is a return inside
    the loop, [None] its normal end; a nil [r] panics at [r.NeighborAS]. *)
Fixpoint moreSpecificsLoop (best : UnicastRoute.t)
    (moreSpecifics : list (option UnicastRoute.t)) : go (option error) :=
  match moreSpecifics with
  | [] => ret None
  | None :: _ => panic
  | Some r :: moreSpecifics' =>
      if negb (UnicastRoute.NeighborAS r =? UnicastRoute.NeighborAS best)
      then ret (Some ErrMoreSpecificFromOtherNeighbor)
      else moreSpecificsLoop best moreSpecifics'
  end.

(** Lines 67-81: the eBGP left-most AS check and the final [return nil]. *)
Definition leftMostASCheck (fs : FlowSpecRoute.t) (best : UnicastRoute.t)
  : option error :=
  if FlowSpecRoute.FromEBGP fs then
    match UnicastRoute.ASPath best, FlowSpecRoute.ASPath fs with
    | [], _ => Some ErrLeftMostASMismatch
    | _ :: _, [] => Some ErrLeftMostASMismatch
    | best0 :: _, fs0 :: _ =>
        if negb (fs0 =? best0) then Some ErrLeftMostASMismatch else None
    end
  else None.

(** The code from the label [RuleCCheck] to the end of the function. *)
Definition RuleCCheck (fs : FlowSpecRoute.t) (rib : UnicastRIB)
    (best : UnicastRoute.t) (dst : netip.Prefix) : go (option error) :=
  r <- moreSpecificsLoop best (MoreSpecifics rib dst) ;;
  match r with
  | Some e => ret (Some e)
  | None => ret (leftMostASCheck fs best)
  end.

Definition defaultConfig : Config :=
  {| AllowNoDestPrefix := false;
     EnableEmptyOrConfed := true;
     ASPathPolicy_ := None |}.

(** Lines 27-32: a nil [cfg] is replaced by the default. *)
Definition configOrDefault (cfg : option Config) : Config :=
  match cfg with
  | None => defaultConfig
  | Some c => c
  end.

(** [ValidateFeasibility fs rib cfg]: [fs] is the rule [*fs], [cfg] may be
    nil; the result [None] is the nil error. *)
Definition ValidateFeasibility (fs : FlowSpecRoute.t) (rib : UnicastRIB)
    (cfg : option Config) : go (option error) :=
  let cfg := configOrDefault cfg in
  match FlowSpecRoute.DestPrefix fs with
  | None =>
      if negb (AllowNoDestPrefix cfg) then ret (Some ErrNoDestinationPrefix)
      else ret None
  | Some dst =>
      match BestPath rib dst with
      | None => ret (Some ErrNoBestUnicast)
      | Some best =>
          if EnableEmptyOrConfed cfg && negb (FlowSpecRoute.FromEBGP fs)
             && Nat.eqb (length (FlowSpecRoute.ASPath fs)) 0
          then RuleCCheck fs rib best dst
          else if negb (net.Equal (UnicastRoute.OriginatorID best)
                          (FlowSpecRoute.OriginatorID fs))
          then ret (Some ErrOriginatorValidationFailed)
          else RuleCCheck fs rib best dst
      end
  end.

(** * Predicates and example values of the statements *)

(** The 128-bit value of an address. *)
Definition value128 (a : netip.Addr) : Z :=
  netip.hi (netip.addr a) * 2 ^ 64 + netip.lo (netip.addr a).

(** The order of [Addr.Compare] written out: an address of a shorter
    family first (the zero Addr, then IPv4, then IPv6), within one family
    the smaller 128-bit value first, and for one value the smaller zone. *)
Definition netipBefore (a b : netip.Addr) : Prop :=
  netip.BitLen a < netip.BitLen b \/
  (netip.BitLen a = netip.BitLen b /\
   (value128 a < value128 b \/
    (value128 a = value128 b /\
     netip.string_lt (netip.Zone a) (netip.Zone b) = true))).

(** The two halves of an address are 64-bit values. *)
Definition uint128InRange (a : netip.Addr) : Prop :=
  0 <= netip.hi (netip.addr a) < 2 ^ 64 /\
  0 <= netip.lo (netip.addr a) < 2 ^ 64.

(** [netip.IPv6Unspecified ()], the address [::]. *)
Definition IPv6Unspecified : netip.Addr :=
  {| netip.addr := {| netip.hi := 0; netip.lo := 0 |};
     netip.z := netip.z6 String.EmptyString |}.

Definition swapExit (e : rawExit) : rawExit :=
  match e with
  | aLower => bLower
  | bLower => aLower
  | loopEnd => loopEnd
  end.

Definition opp_result (r : go Z) : go Z := go_map Z.opp r.

(** Every destination- or source-prefix component carries a prefix. *)
Definition prefixesPresent (a : FSComponentList) : Prop :=
  Forall (fun c => isPrefixType (Type_ c) = true -> Prefix c <> None)
         (Components a).

(** [x] has precedence over [y] or equals it. *)
Definition precedesOrEqual (x y : FSComponentList) : Prop :=
  exists r, CompareFlowSpecKey x y = ret r /\ r <= 0.

(** Every element of [l] is related to the one after it. *)
Definition adjacent {A : Type} (le : A -> A -> Prop) (l : list A) : Prop :=
  forall p x y q, l = p ++ x :: y :: q -> le x y.

(** ** Example keys *)

(** [netip.ParsePrefix "a.b.c.d/bits"]. *)
Definition prefix4 (a b c d bits : Z) : netip.Prefix :=
  netip.PrefixFrom (netip.AddrFrom4 a b c d) bits.

Definition destination (p : netip.Prefix) : FSComponent :=
  {| Type_ := ComponentTypeDestinationPrefix; Prefix := Some p; Raw := [] |}.

Definition rawComponent (t : ComponentType) (r : list byte) : FSComponent :=
  {| Type_ := t; Prefix := None; Raw := r |}.

(** The invariant of a component list: types strictly ascending, hence at
    most one component per type. *)
Fixpoint ascendingTypes (cs : list FSComponent) : bool :=
  match cs with
  | c1 :: (c2 :: _) as cs' => (Type_ c1 <? Type_ c2) && ascendingTypes cs'
  | _ => true
  end.

Definition invariant (a : FSComponentList) : bool :=
  ascendingTypes (Components a).

(** Three keys with a destination prefix and an ip-protocol value. *)
Definition cycleA : FSComponentList :=
  {| Components := [destination (prefix4 10 0 0 0 8);
                    rawComponent ComponentTypeIpProtocol [x01]] |}.
Definition cycleB : FSComponentList :=
  {| Components := [destination (prefix4 9 0 0 0 16);
                    rawComponent ComponentTypeIpProtocol [x02]] |}.
Definition cycleC : FSComponentList :=
  {| Components := [destination (prefix4 10 1 0 0 16);
                    rawComponent ComponentTypeIpProtocol [x03]] |}.

(** Three keys with a destination prefix only. *)
Definition net10 : FSComponentList :=
  {| Components := [destination (prefix4 10 0 0 0 8)] |}.
Definition net9 : FSComponentList :=
  {| Components := [destination (prefix4 9 0 0 0 16)] |}.
Definition net11 : FSComponentList :=
  {| Components := [destination (prefix4 11 0 0 0 8)] |}.

(** A destination-prefix component whose [Prefix] pointer is nil. *)
Definition nilPrefixKey : FSComponentList :=
  {| Components := [{| Type_ := ComponentTypeDestinationPrefix;
                       Prefix := None; Raw := [] |}] |}.

(** Two source-prefix components behind an undecided destination-prefix
    position. *)
Definition source (p : netip.Prefix) : FSComponent :=
  {| Type_ := ComponentTypeSourcePrefix; Prefix := Some p; Raw := [] |}.

Definition srcWide : FSComponentList :=
  {| Components := [destination (prefix4 10 0 0 0 8)]
                   ++ source (prefix4 123 0 2 0 16) :: [] |}.
Definition srcNarrow : FSComponentList :=
  {| Components := [destination (prefix4 9 0 0 0 16)]
                   ++ source (prefix4 123 0 2 0 24) :: [] |}.

Definition portLong : FSComponentList :=
  {| Components := [destination (prefix4 10 0 0 0 8)]
                   ++ rawComponent ComponentTypePort [x11; x00; x16] :: [] |}.
Definition portShort : FSComponentList :=
  {| Components := [destination (prefix4 9 0 0 0 16)]
                   ++ rawComponent ComponentTypePort [x11; x00] :: [] |}.

(** An IPv4 and an IPv6 destination prefix of the same length:
    [1.0.0.0/8] and [::/8]. *)
Definition v4Slash8 : FSComponentList :=
  {| Components := [destination (prefix4 1 0 0 0 8)] |}.
Definition v6Slash8 : FSComponentList :=
  {| Components := [destination (netip.PrefixFrom IPv6Unspecified 8)] |}.

(** ** Feasibility: example values *)

Definition dst_192_88_99 : netip.Prefix := prefix4 192 88 99 0 24.

Definition originator1 : net.IP := net.IPv4 xc0 x00 x02 x01.
Definition originator2 : net.IP := net.IPv4 xc0 x00 x02 x02.

Definition bestRoute : UnicastRoute.t :=
  {| UnicastRoute.Prefix := dst_192_88_99;
     UnicastRoute.NeighborAS := 65001;
     UnicastRoute.ASPath := [65001; 64512];
     UnicastRoute.OriginatorID := originator1 |}.

Definition ribWith (best : option UnicastRoute.t)
    (more : list (option UnicastRoute.t)) : UnicastRIB :=
  {| BestPath := fun _ => best; MoreSpecifics := fun _ => more |}.

Definition rule (dst : option netip.Prefix) (ebgp : bool) (path : list Z)
    (originator : net.IP) : FlowSpecRoute.t :=
  {| FlowSpecRoute.DestPrefix := dst;
     FlowSpecRoute.FromEBGP := ebgp;
     FlowSpecRoute.NeighborAS := 65001;
     FlowSpecRoute.ASPath := path;
     FlowSpecRoute.OriginatorID := originator |}.

Definition config (allow relax : bool) : Config :=
  {| AllowNoDestPrefix := allow;
     EnableEmptyOrConfed := relax;
     ASPathPolicy_ := None |}.

(** The rule passed steps a to c: it has a destination prefix [dst] with
    best path [best], the originator check was skipped or passed, and every
    more-specific route has the neighbor AS of the best path. *)
Definition passesRulesABC (fs : FlowSpecRoute.t) (rib : UnicastRIB)
    (cfg : option Config) (dst : netip.Prefix) (best : UnicastRoute.t)
  : Prop :=
  FlowSpecRoute.DestPrefix fs = Some dst /\
  BestPath rib dst = Some best /\
  ((EnableEmptyOrConfed (configOrDefault cfg) = true /\
    FlowSpecRoute.FromEBGP fs = false /\ FlowSpecRoute.ASPath fs = []) \/
   net.Equal (UnicastRoute.OriginatorID best)
             (FlowSpecRoute.OriginatorID fs) = true) /\
  Forall (fun r => exists u, r = Some u /\
                     UnicastRoute.NeighborAS u = UnicastRoute.NeighborAS best)
         (MoreSpecifics rib dst).

Definition otherRoute : UnicastRoute.t :=
  {| UnicastRoute.Prefix := prefix4 192 88 99 128 25;
     UnicastRoute.NeighborAS := 65001;
     UnicastRoute.ASPath := [65001];
     UnicastRoute.OriginatorID := originator1 |}.

(** ** Predicates of the further properties *)

(** The decision of one position taken alone: [-1] or [1] when the position
    decides, [0] when the walk goes on to the next position. *)
Definition comparePosition (ca cb : FSComponent) : go Z :=
  go_map site_value (walk [ca] [cb]).

(** The order of two raw values: the first differing byte, then the longer
    value first. *)
Fixpoint rawOrder (araw braw : list byte) : Z :=
  match araw, braw with
  | [], [] => 0
  | [], _ :: _ => 1
  | _ :: _, [] => -1
  | x :: araw', y :: braw' =>
      if byte_ltb x y then -1
      else if byte_ltb y x then 1
      else rawOrder araw' braw'
  end.

(** The order of two addresses given by [Less]. *)
Definition addrOrder (a b : netip.Addr) : Z :=
  if netip.Less a b then -1 else if netip.Less b a then 1 else 0.

(** Every destination- or source-prefix component carries a prefix whose
    length is the one [n] gives for its type. *)
Definition uniformBits (n : ComponentType -> Z) (a : FSComponentList) : Prop :=
  Forall (fun c => isPrefixType (Type_ c) = true ->
                   exists p, Prefix c = Some p /\ netip.Bits p = n (Type_ c))
         (Components a).

(** A position that leaves the decision to the next one: the two
    components have the same type and either the same raw value, or prefixes
    of the same length and address, or prefixes of different length with
    the longer one's address outside the shorter one. *)
Definition undecidedPosition (ca cb : FSComponent) : Prop :=
  Type_ ca = Type_ cb /\
  (isPrefixType (Type_ ca) = false -> Raw ca = Raw cb) /\
  (isPrefixType (Type_ ca) = true ->
   exists pa pb,
     Prefix ca = Some pa /\ Prefix cb = Some pb /\
     (netip.Bits pa = netip.Bits pb ->
      netip.Addr_of pa = netip.Addr_of pb) /\
     (netip.Bits pa > netip.Bits pb ->
      netip.Contains pb (netip.Addr_of pa) = false) /\
     (netip.Bits pb > netip.Bits pa ->
      netip.Contains pa (netip.Addr_of pb) = false)).

(** The first position at which the walk panics: the positions before it
    are undecided, and it holds two components of the same prefix type of
    which one has a nil prefix. *)
Definition nilPrefixReached (a b : FSComponentList) : Prop :=
  exists pre_a pre_b ca cb ta tb,
    Components a = pre_a ++ ca :: ta /\
    Components b = pre_b ++ cb :: tb /\
    length pre_a = length pre_b /\ length ta = length tb /\
    walk pre_a pre_b = ret line107 /\
    Type_ ca = Type_ cb /\ isPrefixType (Type_ ca) = true /\
    (Prefix ca = None \/ Prefix cb = None).

(** Two more keys with a 16-bit destination prefix, like [net9]. *)
Definition net10_1 : FSComponentList :=
  {| Components := [destination (prefix4 10 1 0 0 16)] |}.
Definition net10_2 : FSComponentList :=
  {| Components := [destination (prefix4 10 2 0 0 16)] |}.

(** Two components with the same content for the comparison: the same
    type and, by the type, the same prefix or the same raw value. *)
Definition sameContent (ca cb : FSComponent) : Prop :=
  Type_ ca = Type_ cb /\
  if isPrefixType (Type_ ca) then Prefix ca = Prefix cb
  else Raw ca = Raw cb.

(** Every element of [l] is related to every element after it. *)
Definition ordered {A : Type} (le : A -> A -> Prop) (l : list A) : Prop :=
  forall pre x mid y post, l = pre ++ x :: mid ++ y :: post -> le x y.

(** No entry of the slice is a nil pointer. *)
Definition noNil (more : list (option UnicastRoute.t)) : Prop :=
  Forall (fun r => r <> None) more.

(** A more-specific route that is there and has the neighbor AS of the
    best path. *)
Definition sameNeighborAS (best : UnicastRoute.t)
    (r : option UnicastRoute.t) : Prop :=
  exists u, r = Some u /\
            UnicastRoute.NeighborAS u = UnicastRoute.NeighborAS best.

(** The originator step of rule b lets the rule through. *)
Definition originatorAccepted (fs : FlowSpecRoute.t) (cfg : option Config)
    (best : UnicastRoute.t) : Prop :=
  (EnableEmptyOrConfed (configOrDefault cfg) = true /\
   FlowSpecRoute.FromEBGP fs = false /\ FlowSpecRoute.ASPath fs = []) \/
  net.Equal (UnicastRoute.OriginatorID best)
            (FlowSpecRoute.OriginatorID fs) = true.

(** The left-most AS numbers of the two AS_PATHs exist and agree. *)
Definition leftMostASAgree (fs : FlowSpecRoute.t) (best : UnicastRoute.t)
  : Prop :=
  exists as0 fsRest bestRest,
    FlowSpecRoute.ASPath fs = as0 :: fsRest /\
    UnicastRoute.ASPath best = as0 :: bestRest.

(** Keys and a route of the further witnesses. *)
Definition protoBehindWide : FSComponentList :=
  {| Components := [destination (prefix4 10 0 0 0 8)]
                   ++ rawComponent ComponentTypeIpProtocol [x06] :: [] |}.
Definition sourceBehindNarrow : FSComponentList :=
  {| Components := [destination (prefix4 9 0 0 0 16)]
                   ++ {| Type_ := ComponentTypeSourcePrefix;
                         Prefix := None; Raw := [] |} :: [] |}.

Definition strayRoute : UnicastRoute.t :=
  {| UnicastRoute.Prefix := prefix4 192 88 99 0 25;
     UnicastRoute.NeighborAS := 65009;
     UnicastRoute.ASPath := [65009];
     UnicastRoute.OriginatorID := originator2 |}.

(** * Properties *)

(** ** Facts about the library functions *)

Lemma byte_ltb_irrefl (x : byte) : byte_ltb x x = false.
Proof. unfold byte_ltb. apply N.ltb_irrefl. Qed.

Lemma byte_ltb_asym (x y : byte) : byte_ltb x y = true -> byte_ltb y x = false.
Proof.
  unfold byte_ltb. intros H. apply N.ltb_lt in H. apply N.ltb_ge. lia.
Qed.

Lemma byte_ltb_total (x y : byte) :
  byte_ltb x y = false -> byte_ltb y x = false -> x = y.
Proof.
  unfold byte_ltb. intros H1 H2.
  apply N.ltb_ge in H1. apply N.ltb_ge in H2.
  assert (E : Byte.to_N x = Byte.to_N y) by lia.
  assert (S : Some x = Some y)
    by (rewrite <- (Byte.of_to_N x), <- (Byte.of_to_N y), E; reflexivity).
  now inversion S.
Qed.

Lemma string_lt_irrefl (s : String.string) : netip.string_lt s s = false.
Proof.
  unfold netip.string_lt. pose proof (String.compare_antisym s s) as E.
  destruct (String.compare s s); simpl in E; congruence.
Qed.

Lemma string_lt_asym (s t : String.string) :
  netip.string_lt s t = true -> netip.string_lt t s = false.
Proof.
  unfold netip.string_lt. rewrite (String.compare_antisym t s).
  destruct (String.compare s t); simpl; congruence.
Qed.

Lemma string_lt_total (s t : String.string) :
  netip.string_lt s t = false -> netip.string_lt t s = false -> s = t.
Proof.
  unfold netip.string_lt. rewrite (String.compare_antisym t s).
  destruct (String.compare s t) eqn:E; simpl; try congruence.
  intros _ _. now apply String.compare_eq_iff.
Qed.

Lemma Less_irrefl (a : netip.Addr) : netip.Less a a = false.
Proof.
  unfold netip.Less, netip.Compare.
  rewrite !Z.ltb_irrefl, string_lt_irrefl. now destruct (netip.Is6 a).
Qed.

Lemma Less_asym (a b : netip.Addr) :
  netip.Less a b = true -> netip.Less b a = false.
Proof.
  unfold netip.Less, netip.Compare.
  destruct a as [[ah al] az], b as [[bh bl] bz]; simpl.
  unfold netip.BitLen, netip.Is6, netip.Zone; simpl.
  destruct az, bz; simpl; try discriminate; try reflexivity;
    destruct (Z.ltb_spec ah bh), (Z.ltb_spec bh ah);
    try lia; try discriminate; try reflexivity;
    destruct (Z.ltb_spec al bl), (Z.ltb_spec bl al);
    try lia; try discriminate; try reflexivity.
  destruct (netip.string_lt zoneV6 zoneV0) eqn:S1.
  - now rewrite (string_lt_asym _ _ S1).
  - destruct (netip.string_lt zoneV0 zoneV6); discriminate.
Qed.

Lemma Less_total (a b : netip.Addr) :
  netip.Less a b = false -> netip.Less b a = false -> a = b.
Proof.
  unfold netip.Less, netip.Compare.
  destruct a as [[ah al] az], b as [[bh bl] bz]; simpl.
  unfold netip.BitLen, netip.Is6, netip.Zone; simpl.
  destruct az, bz; simpl; try discriminate;
  destruct (Z.ltb_spec ah bh), (Z.ltb_spec bh ah); try lia; try discriminate;
  destruct (Z.ltb_spec al bl), (Z.ltb_spec bl al); try lia; try discriminate;
  try (intros _ _; f_equal; f_equal; lia).
  destruct (netip.string_lt zoneV6 zoneV0) eqn:S1; try discriminate.
  destruct (netip.string_lt zoneV0 zoneV6) eqn:S2; try discriminate.
  intros _ _. rewrite (string_lt_total _ _ S1 S2).
  f_equal; f_equal; lia.
Qed.

(** Within one address family and zone, [Less] is the order of the
    128-bit values. *)
Lemma Less_numeric (a b : netip.Addr) :
  netip.z a = netip.z b ->
  0 <= netip.lo (netip.addr a) < 2 ^ 64 ->
  0 <= netip.lo (netip.addr b) < 2 ^ 64 ->
  (netip.Less a b = true <-> value128 a < value128 b).
Proof.
  unfold netip.Less, netip.Compare, value128, netip.BitLen, netip.Is6,
    netip.Zone.
  destruct a as [[ah al] az], b as [[bh bl] bz]; simpl.
  intros <- Ra Rb. rewrite Z.ltb_irrefl, string_lt_irrefl.
  destruct (Z.ltb_spec ah bh), (Z.ltb_spec bh ah); try lia;
    try (split; [intros _; nia | reflexivity]);
    try (split; [discriminate | nia]).
  assert (ah = bh) as -> by lia.
  destruct (Z.ltb_spec al bl), (Z.ltb_spec bl al); try lia;
    try (split; [intros _; lia | reflexivity]);
    try (split; [discriminate | lia]).
  destruct az; split; try discriminate; lia.
Qed.

Lemma value128_lt (ah al bh bl : Z) :
  0 <= al < 2 ^ 64 -> 0 <= bl < 2 ^ 64 ->
  (ah * 2 ^ 64 + al < bh * 2 ^ 64 + bl <-> ah < bh \/ (ah = bh /\ al < bl)).
Proof. intros Ra Rb. split; intros H; nia. Qed.

Lemma value128_eq (ah al bh bl : Z) :
  0 <= al < 2 ^ 64 -> 0 <= bl < 2 ^ 64 ->
  (ah * 2 ^ 64 + al = bh * 2 ^ 64 + bl <-> ah = bh /\ al = bl).
Proof. intros Ra Rb. split; intros H; nia. Qed.

(** The value part of [Compare], read as the order of the 128-bit
    values. *)
Lemma Compare_value_order (ah al bh bl : Z) (tie : Z) :
  0 <= al < 2 ^ 64 -> 0 <= bl < 2 ^ 64 ->
  ((if ah <? bh then -1
    else if bh <? ah then 1
    else if al <? bl then -1
    else if bl <? al then 1
    else tie) =? -1) = true <->
  ah * 2 ^ 64 + al < bh * 2 ^ 64 + bl \/
  (ah * 2 ^ 64 + al = bh * 2 ^ 64 + bl /\ (tie =? -1) = true).
Proof.
  intros Ra Rb.
  rewrite (value128_lt ah al bh bl Ra Rb), (value128_eq ah al bh bl Ra Rb).
  destruct (Z.ltb_spec ah bh), (Z.ltb_spec bh ah); try lia;
    try (split; [intros _; left; left; lia | reflexivity]);
    try (split; [discriminate | intros [[H|[H _]]|[[H _] _]]; lia]).
  destruct (Z.ltb_spec al bl), (Z.ltb_spec bl al); try lia;
    try (split; [intros _; left; right; lia | reflexivity]);
    try (split; [discriminate | intros [[H|[_ H]]|[[_ H] _]]; lia]).
Qed.

(** [Less] is the order [netipBefore]. *)
Lemma Less_order (a b : netip.Addr) :
  uint128InRange a -> uint128InRange b ->
  (netip.Less a b = true <-> netipBefore a b).
Proof.
  unfold uint128InRange, netipBefore, netip.Less, netip.Compare, value128,
    netip.BitLen, netip.Is6, netip.Zone.
  destruct a as [[ah al] az], b as [[bh bl] bz]; simpl.
  intros [Rah Ral] [Rbh Rbl].
  destruct az as [| |za], bz as [| |zb]; simpl;
    try (split; [intros _; left; lia | reflexivity]);
    try (split; [discriminate | intros [H|[H _]]; lia]).
  - rewrite (Compare_value_order ah al bh bl 0 Ral Rbl). simpl.
    split; [intros [H|[_ H]]; [auto|discriminate]|].
    intros [H|[_ [H|[_ H]]]]; [lia|auto|discriminate].
  - rewrite (Compare_value_order ah al bh bl 0 Ral Rbl). simpl.
    split; [intros [H|[_ H]]; [auto|discriminate]|].
    intros [H|[_ [H|[_ H]]]]; [lia|auto|discriminate].
  - rewrite (Compare_value_order ah al bh bl _ Ral Rbl).
    split.
    + intros [H|[E T]]; [auto|]. right. split; [reflexivity|].
      right. split; [exact E|].
      destruct (netip.string_lt za zb); [reflexivity|].
      destruct (netip.string_lt zb za); discriminate.
    + intros [H|[_ [H|[E T]]]]; [lia|auto|]. right. split; [exact E|].
      now rewrite T.
Qed.

(** For two identifiers of the same length [IP.Equal] is equality of the
    bytes. *)
Lemma bytes_Equal_eq (x y : list byte) : net.bytes_Equal x y = true <-> x = y.
Proof.
  revert y. induction x as [|b x IH]; intros [|c y]; simpl;
    try (split; [discriminate|discriminate]); try tauto.
  rewrite andb_true_iff, IH. split.
  - intros [E ->]. now rewrite (Byte.byte_dec_bl _ _ E).
  - intros E. injection E as -> ->. split; auto. now apply Byte.byte_dec_lb.
Qed.

Lemma net_Equal_same_length (ip x : net.IP) :
  length ip = length x -> (net.Equal ip x = true <-> ip = x).
Proof.
  intros E. unfold net.Equal. rewrite E, Nat.eqb_refl. apply bytes_Equal_eq.
Qed.

(** ** The walk of [CompareFlowSpecKey] *)

Lemma rawLoop_swap (araw braw : list byte) :
  rawLoop braw araw = swapExit (rawLoop araw braw).
Proof.
  revert braw. induction araw as [|x araw IH]; intros [|y braw]; simpl; auto.
  destruct (byte_ltb x y) eqn:Hxy.
  - now rewrite (byte_ltb_asym _ _ Hxy).
  - destruct (byte_ltb y x); auto.
Qed.

Lemma rawLoop_refl (araw : list byte) : rawLoop araw araw = loopEnd.
Proof.
  induction araw as [|x araw IH]; simpl; auto.
  now rewrite byte_ltb_irrefl.
Qed.

(** The first differing byte of the common part decides the loop. *)
Lemma rawLoop_first_diff (p sa sb : list byte) (x y : byte) :
  byte_ltb x y = true ->
  rawLoop (p ++ x :: sa) (p ++ y :: sb) = aLower /\
  rawLoop (p ++ y :: sb) (p ++ x :: sa) = bLower.
Proof.
  intros Hxy. induction p as [|c p IH]; simpl.
  - now rewrite Hxy, (byte_ltb_asym _ _ Hxy).
  - now rewrite byte_ltb_irrefl.
Qed.

(** When one slice extends the other, the loop runs to its end. *)
Lemma rawLoop_extension (p s : list byte) :
  rawLoop (p ++ s) p = loopEnd /\ rawLoop p (p ++ s) = loopEnd.
Proof.
  induction p as [|c p IH]; simpl.
  - split; auto. now destruct s.
  - now rewrite byte_ltb_irrefl.
Qed.

Lemma walk_antisym (acomps bcomps : list FSComponent) :
  go_map site_value (walk bcomps acomps) =
  opp_result (go_map site_value (walk acomps bcomps)).
Proof.
  revert bcomps.
  induction acomps as [|ca acomps IH]; intros [|cb bcomps]; simpl; auto.
  destruct (Z.ltb_spec (Type_ ca) (Type_ cb)) as [T1|T1],
           (Z.ltb_spec (Type_ cb) (Type_ ca)) as [T2|T2];
    try lia; try reflexivity.
  assert (ET : Type_ cb = Type_ ca) by lia. rewrite ET.
  destruct (isPrefixType (Type_ ca)).
  - destruct (Prefix ca) as [pa|], (Prefix cb) as [pb|]; try reflexivity.
    rewrite !Z.gtb_ltb, (Z.eqb_sym (netip.Bits pb) (netip.Bits pa)).
    destruct (Z.ltb_spec (netip.Bits pb) (netip.Bits pa)) as [B1|B1],
             (Z.ltb_spec (netip.Bits pa) (netip.Bits pb)) as [B2|B2],
             (Z.eqb_spec (netip.Bits pa) (netip.Bits pb)) as [B3|B3];
      try lia; simpl.
    + destruct (netip.Contains pb (netip.Addr_of pa)); auto.
    + destruct (netip.Contains pa (netip.Addr_of pb)); auto.
    + destruct (netip.Less (netip.Addr_of pa) (netip.Addr_of pb)) eqn:L1.
      * now rewrite (Less_asym _ _ L1).
      * destruct (netip.Less (netip.Addr_of pb) (netip.Addr_of pa)); auto.
  - rewrite (Nat.eqb_sym (length (Raw cb))), (rawLoop_swap (Raw ca) (Raw cb)).
    destruct (Nat.eqb_spec (length (Raw ca)) (length (Raw cb))) as [E|E].
    + destruct (rawLoop (Raw ca) (Raw cb)); simpl; auto.
    + destruct (rawLoop (Raw ca) (Raw cb)); simpl; auto.
      destruct (Nat.ltb_spec (length (Raw cb)) (length (Raw ca))),
               (Nat.ltb_spec (length (Raw ca)) (length (Raw cb)));
        simpl; auto; lia.
Qed.

Lemma walk_returns (acomps bcomps : list FSComponent) :
  prefixesPresent {| Components := acomps |} ->
  prefixesPresent {| Components := bcomps |} ->
  exists s, walk acomps bcomps = ret s.
Proof.
  unfold prefixesPresent; simpl. intros Ha. revert bcomps.
  induction Ha as [|ca acomps Hca Ha IH]; intros bcomps Hb.
  - destruct bcomps; simpl; eauto.
  - destruct Hb as [|cb bcomps Hcb Hb]; simpl; eauto.
    destruct (Z.ltb_spec (Type_ ca) (Type_ cb)) as [T1|T1]; eauto.
    destruct (Z.ltb_spec (Type_ cb) (Type_ ca)) as [T2|T2]; eauto.
    assert (ET : Type_ cb = Type_ ca) by lia. rewrite ET in Hcb.
    destruct (isPrefixType (Type_ ca)) eqn:P.
    + destruct (Prefix ca) as [pa|]; [|now elim Hca].
      destruct (Prefix cb) as [pb|]; [|now elim Hcb].
      repeat match goal with
      | |- context [if ?c then _ else _] => destruct c; eauto
      end.
    + repeat match goal with
      | |- context [if ?c then _ else _] => destruct c; eauto
      | |- context [match rawLoop ?x ?y with _ => _ end] =>
          destruct (rawLoop x y); eauto
      end.
Qed.

Lemma walk_refl (acomps : list FSComponent) :
  prefixesPresent {| Components := acomps |} ->
  walk acomps acomps = ret line107.
Proof.
  unfold prefixesPresent; simpl.
  induction 1 as [|ca acomps Hca Ha IH]; simpl; auto.
  rewrite Z.ltb_irrefl.
  destruct (isPrefixType (Type_ ca)).
  - destruct (Prefix ca) as [pa|]; [|now elim Hca].
    rewrite Z.gtb_ltb, Z.ltb_irrefl, Less_irrefl, andb_false_r. simpl. exact IH.
  - now rewrite Nat.eqb_refl, rawLoop_refl.
Qed.

(** Positions that yield no decision leave the result to the positions
    after them. *)
Lemma walk_app (pa pb sa sb : list FSComponent) :
  length pa = length pb ->
  walk pa pb = ret line107 ->
  walk (pa ++ sa) (pb ++ sb) = walk sa sb.
Proof.
  revert pb. induction pa as [|ca pa IH]; intros [|cb pb]; simpl;
    try discriminate; auto.
  intros Hlen. injection Hlen as Hlen.
  repeat match goal with
  | |- context [if ?c then _ else _] => destruct c; try discriminate
  | |- context [match Prefix ?c with _ => _ end] =>
      destruct (Prefix c); try discriminate
  | |- context [match rawLoop ?x ?y with _ => _ end] =>
      destruct (rawLoop x y); try discriminate
  end; auto.
Qed.

Lemma walk_not_line102 (acomps bcomps : list FSComponent) :
  walk acomps bcomps <> ret line102.
Proof.
  revert bcomps.
  induction acomps as [|ca acomps IH]; intros [|cb bcomps]; simpl;
    try discriminate.
  repeat match goal with
  | |- context [if (_ <? _)%Z then _ else _] =>
      destruct (_ <? _)%Z; try discriminate
  | |- context [if (_ && _)%bool then _ else _] =>
      destruct (_ && _)%bool; try discriminate
  | |- context [if isPrefixType ?t then _ else _] => destruct (isPrefixType t)
  | |- context [match Prefix ?c with _ => _ end] =>
      destruct (Prefix c); try discriminate
  end; auto.
  destruct (Nat.eqb_spec (length (Raw ca)) (length (Raw cb))) as [E|E];
    destruct (rawLoop (Raw ca) (Raw cb)); try discriminate; auto.
  destruct (Nat.ltb_spec (length (Raw cb)) (length (Raw ca))); try discriminate.
  destruct (Nat.ltb_spec (length (Raw ca)) (length (Raw cb))); try discriminate.
  lia.
Qed.

(** ** Ordering: the claims *)

Lemma CompareFlowSpecKey_site_walk (acomps bcomps : list FSComponent) :
  length acomps = length bcomps ->
  CompareFlowSpecKey_site {| Components := acomps |} {| Components := bcomps |}
  = walk acomps bcomps.
Proof.
  intros E. unfold CompareFlowSpecKey_site; simpl.
  rewrite E, Nat.ltb_irrefl. reflexivity.
Qed.

Lemma CompareFlowSpecKey_site_position
    (pre_a pre_b ta tb : list FSComponent) (ca cb : FSComponent) :
  length pre_a = length pre_b -> length ta = length tb ->
  walk pre_a pre_b = ret line107 ->
  CompareFlowSpecKey_site {| Components := pre_a ++ ca :: ta |}
                          {| Components := pre_b ++ cb :: tb |}
  = walk (ca :: ta) (cb :: tb).
Proof.
  intros E1 E2 W. rewrite CompareFlowSpecKey_site_walk.
  - now apply walk_app.
  - rewrite !length_app; simpl; lia.
Qed.

(** C1, evaluated on the code: on keys that satisfy the invariant of a
    component list the comparison is not transitive.  [cycleA] precedes
    [cycleB] and [cycleB] precedes [cycleC], yet [cycleC] precedes [cycleA];
    [net10] equals [net9] and [net9] equals [net11], yet [net10] precedes
    [net11].  Each time two destination prefixes of different length with
    neither containing the other are passed over without a decision. *)
Theorem CompareFlowSpecKey_not_transitive :
  (invariant cycleA = true /\ invariant cycleB = true /\
   invariant cycleC = true) /\
  (CompareFlowSpecKey cycleA cycleB = ret AHasPrecedence /\
   CompareFlowSpecKey cycleB cycleC = ret AHasPrecedence /\
   CompareFlowSpecKey cycleA cycleC = ret BHasPrecedence) /\
  (invariant net10 = true /\ invariant net9 = true /\
   invariant net11 = true) /\
  (CompareFlowSpecKey net10 net9 = ret Equal /\
   CompareFlowSpecKey net9 net11 = ret Equal /\
   CompareFlowSpecKey net10 net11 = ret AHasPrecedence).
Proof. repeat split; vm_compute; reflexivity. Qed.

(** C2 as stated fails: comparing a key with itself does not return Equal
    when a destination-prefix component has a nil prefix; the call panics. *)
Lemma CompareFlowSpecKey_nil_prefix_not_Equal :
  CompareFlowSpecKey nilPrefixKey nilPrefixKey = panic /\
  CompareFlowSpecKey nilPrefixKey nilPrefixKey <> ret Equal.
Proof. split; [reflexivity | discriminate]. Qed.

Lemma CompareFlowSpecKey_swap (a b : FSComponentList) :
  CompareFlowSpecKey b a = opp_result (CompareFlowSpecKey a b).
Proof.
  unfold CompareFlowSpecKey, CompareFlowSpecKey_site.
  destruct (Nat.ltb_spec (length (Components a)) (length (Components b))),
           (Nat.ltb_spec (length (Components b)) (length (Components a)));
    try lia; try reflexivity.
  apply walk_antisym.
Qed.

(** C2, amended: for keys whose destination- and source-prefix components
    all carry a prefix, the comparison returns, swapping the arguments
    negates the result (A-precedes and B-precedes are exchanged, Equal is
    kept), and a key compared with itself is Equal. *)
Theorem CompareFlowSpecKey_antisymmetric (a b : FSComponentList) :
  prefixesPresent a -> prefixesPresent b ->
  (exists r, CompareFlowSpecKey a b = ret r /\
             CompareFlowSpecKey b a = ret (- r)) /\
  CompareFlowSpecKey a a = ret Equal.
Proof.
  intros Ha Hb. split.
  - assert (R : exists s, CompareFlowSpecKey_site a b = ret s).
    { unfold CompareFlowSpecKey_site.
      destruct (Nat.ltb _ _); eauto. destruct (Nat.ltb _ _); eauto.
      destruct a, b. now apply walk_returns. }
    destruct R as [s R]. exists (site_value s).
    rewrite (CompareFlowSpecKey_swap a b). unfold CompareFlowSpecKey.
    rewrite R. split; reflexivity.
  - unfold CompareFlowSpecKey, CompareFlowSpecKey_site.
    rewrite Nat.ltb_irrefl. destruct a as [acomps]; simpl.
    now rewrite walk_refl.
Qed.

Lemma CompareFlowSpecKey_antisymmetric_witness :
  (exists r, CompareFlowSpecKey cycleA net9 = ret r /\
             CompareFlowSpecKey net9 cycleA = ret (- r)) /\
  CompareFlowSpecKey cycleA cycleA = ret Equal.
Proof.
  apply (CompareFlowSpecKey_antisymmetric cycleA net9);
    repeat constructor; discriminate.
Defined.

(** The prefix branch at a position reached without a decision, in the
    terms of the code: [Contains] for different bit-lengths, [Less] for
    equal ones. *)
Lemma CompareFlowSpecKey_prefix_position_Less
    (pre_a pre_b ta tb : list FSComponent) (ca cb : FSComponent)
    (pa pb : netip.Prefix) :
  length pre_a = length pre_b -> length ta = length tb ->
  walk pre_a pre_b = ret line107 ->
  Type_ ca = Type_ cb -> isPrefixType (Type_ ca) = true ->
  Prefix ca = Some pa -> Prefix cb = Some pb ->
  let a := {| Components := pre_a ++ ca :: ta |} in
  let b := {| Components := pre_b ++ cb :: tb |} in
  let next :=
    CompareFlowSpecKey {| Components := ta |} {| Components := tb |} in
  let abits := netip.Bits pa in
  let bbits := netip.Bits pb in
  let aaddr := netip.Addr_of pa in
  let baddr := netip.Addr_of pb in
  (abits > bbits ->
     CompareFlowSpecKey a b =
       if netip.Contains pb aaddr then ret AHasPrecedence else next) /\
  (bbits > abits ->
     CompareFlowSpecKey a b =
       if netip.Contains pa baddr then ret BHasPrecedence else next) /\
  (abits = bbits -> netip.Less aaddr baddr = true ->
     CompareFlowSpecKey a b = ret AHasPrecedence) /\
  (abits = bbits -> netip.Less baddr aaddr = true ->
     CompareFlowSpecKey a b = ret BHasPrecedence) /\
  (abits = bbits -> aaddr = baddr -> CompareFlowSpecKey a b = next).
Proof.
  intros E1 E2 W ET TP Pa Pb a b next abits bbits aaddr baddr.
  unfold CompareFlowSpecKey in *. subst a b next.
  rewrite (CompareFlowSpecKey_site_position _ _ _ _ _ _ E1 E2 W).
  rewrite (CompareFlowSpecKey_site_walk _ _ E2).
  simpl. rewrite <- ET, Z.ltb_irrefl, TP, Pa, Pb.
  fold abits bbits aaddr baddr. rewrite !Z.gtb_ltb.
  repeat split.
  - intros H.
    destruct (Z.ltb_spec bbits abits), (Z.ltb_spec abits bbits),
             (Z.eqb_spec abits bbits); try lia; simpl.
    destruct (netip.Contains pb aaddr); reflexivity.
  - intros H.
    destruct (Z.ltb_spec bbits abits), (Z.ltb_spec abits bbits),
             (Z.eqb_spec abits bbits); try lia; simpl.
    destruct (netip.Contains pa baddr); reflexivity.
  - intros H L1.
    destruct (Z.ltb_spec bbits abits), (Z.ltb_spec abits bbits),
             (Z.eqb_spec abits bbits); try lia; simpl.
    now rewrite L1.
  - intros H L1.
    destruct (Z.ltb_spec bbits abits), (Z.ltb_spec abits bbits),
             (Z.eqb_spec abits bbits); try lia; simpl.
    now rewrite (Less_asym _ _ L1), L1.
  - intros H EA.
    destruct (Z.ltb_spec bbits abits), (Z.ltb_spec abits bbits),
             (Z.eqb_spec abits bbits); try lia; simpl.
    now rewrite EA, Less_irrefl.
Qed.

Lemma CompareFlowSpecKey_prefix_position_Less_example :
  CompareFlowSpecKey srcWide srcNarrow = ret BHasPrecedence.
Proof.
  destruct (CompareFlowSpecKey_prefix_position_Less
              [destination (prefix4 10 0 0 0 8)]
              [destination (prefix4 9 0 0 0 16)] [] []
              (source (prefix4 123 0 2 0 16)) (source (prefix4 123 0 2 0 24))
              (prefix4 123 0 2 0 16) (prefix4 123 0 2 0 24)
              eq_refl eq_refl eq_refl eq_refl eq_refl eq_refl eq_refl)
    as (_ & H & _).
  apply H. reflexivity.
Defined.

(** C3 as stated fails: of two destination prefixes of the same
    bit-length, [1.0.0.0/8] and [::/8], the second has the numerically
    smaller address, yet the call returns A-precedes: an IPv4 address comes
    before every IPv6 address. *)
Lemma CompareFlowSpecKey_mixed_family_not_numeric :
  netip.Bits (prefix4 1 0 0 0 8)
  = netip.Bits (netip.PrefixFrom IPv6Unspecified 8) /\
  value128 IPv6Unspecified < value128 (netip.AddrFrom4 1 0 0 0) /\
  CompareFlowSpecKey v4Slash8 v6Slash8 = ret AHasPrecedence /\
  CompareFlowSpecKey v4Slash8 v6Slash8 <> ret BHasPrecedence.
Proof.
  split; [reflexivity|]. split; [reflexivity|].
  split; [reflexivity|discriminate].
Qed.

(** C3, amended: at a position reached without a decision where both
    components have the same prefix type: with different bit-lengths the
    longer prefix wins exactly when the shorter prefix contains its
    address, and otherwise the comparison is left to the positions after
    it; with equal bit-lengths the address that comes first in the order
    of [netip] wins (an IPv4 address before an IPv6 address, within one
    family the numerically smaller address), and equal addresses leave
    the comparison to the positions after it. *)
Theorem CompareFlowSpecKey_prefix_position
    (pre_a pre_b ta tb : list FSComponent) (ca cb : FSComponent)
    (pa pb : netip.Prefix) :
  length pre_a = length pre_b -> length ta = length tb ->
  walk pre_a pre_b = ret line107 ->
  Type_ ca = Type_ cb -> isPrefixType (Type_ ca) = true ->
  Prefix ca = Some pa -> Prefix cb = Some pb ->
  uint128InRange (netip.Addr_of pa) -> uint128InRange (netip.Addr_of pb) ->
  let a := {| Components := pre_a ++ ca :: ta |} in
  let b := {| Components := pre_b ++ cb :: tb |} in
  let next :=
    CompareFlowSpecKey {| Components := ta |} {| Components := tb |} in
  let abits := netip.Bits pa in
  let bbits := netip.Bits pb in
  let aaddr := netip.Addr_of pa in
  let baddr := netip.Addr_of pb in
  (abits > bbits ->
     CompareFlowSpecKey a b =
       if netip.Contains pb aaddr then ret AHasPrecedence else next) /\
  (bbits > abits ->
     CompareFlowSpecKey a b =
       if netip.Contains pa baddr then ret BHasPrecedence else next) /\
  (abits = bbits -> netipBefore aaddr baddr ->
     CompareFlowSpecKey a b = ret AHasPrecedence) /\
  (abits = bbits -> netipBefore baddr aaddr ->
     CompareFlowSpecKey a b = ret BHasPrecedence) /\
  (abits = bbits -> aaddr = baddr -> CompareFlowSpecKey a b = next) /\
  (abits = bbits ->
     netipBefore aaddr baddr \/ netipBefore baddr aaddr \/ aaddr = baddr).
Proof.
  intros E1 E2 W ET TP Pa Pb Ra Rb a b next abits bbits aaddr baddr.
  destruct (CompareFlowSpecKey_prefix_position_Less
              pre_a pre_b ta tb ca cb pa pb E1 E2 W ET TP Pa Pb)
    as (H1 & H2 & H3 & H4 & H5).
  split; [exact H1|]. split; [exact H2|].
  split; [|split; [|split]].
  - intros EB B. apply (H3 EB). now apply (Less_order _ _ Ra Rb).
  - intros EB B. apply (H4 EB). now apply (Less_order _ _ Rb Ra).
  - exact H5.
  - intros _.
    destruct (netip.Less aaddr baddr) eqn:L1.
    { left. now apply (Less_order _ _ Ra Rb). }
    destruct (netip.Less baddr aaddr) eqn:L2.
    { right. left. now apply (Less_order _ _ Rb Ra). }
    right. right. now apply Less_total.
Qed.

Lemma CompareFlowSpecKey_prefix_position_witness :
  CompareFlowSpecKey v4Slash8 v6Slash8 = ret AHasPrecedence.
Proof.
  destruct (CompareFlowSpecKey_prefix_position
              [] [] [] []
              (destination (prefix4 1 0 0 0 8))
              (destination (netip.PrefixFrom IPv6Unspecified 8))
              (prefix4 1 0 0 0 8) (netip.PrefixFrom IPv6Unspecified 8)
              eq_refl eq_refl eq_refl eq_refl eq_refl eq_refl eq_refl)
    as (_ & _ & H & _).
  - vm_compute. repeat split; discriminate.
  - vm_compute. repeat split; discriminate.
  - apply H.
    + reflexivity.
    + left. vm_compute. reflexivity.
Defined.

(** C4: at a position reached without a decision where both components
    have the same raw-value type: the first byte at which the two values
    differ decides, the smaller byte (unsigned) winning; when one value
    extends the other the longer one wins; identical values leave the
    comparison to the positions after it.  For one component
    of the same raw type each, [81 11] against [01 06] gives B-precedes. *)
Theorem CompareFlowSpecKey_raw_position
    (pre_a pre_b ta tb : list FSComponent) (ca cb : FSComponent) :
  length pre_a = length pre_b -> length ta = length tb ->
  walk pre_a pre_b = ret line107 ->
  Type_ ca = Type_ cb -> isPrefixType (Type_ ca) = false ->
  let a := {| Components := pre_a ++ ca :: ta |} in
  let b := {| Components := pre_b ++ cb :: tb |} in
  let next :=
    CompareFlowSpecKey {| Components := ta |} {| Components := tb |} in
  (forall p x y sa sb,
      Raw ca = p ++ x :: sa -> Raw cb = p ++ y :: sb ->
      (Byte.to_N x < Byte.to_N y)%N ->
      CompareFlowSpecKey a b = ret AHasPrecedence) /\
  (forall p x y sa sb,
      Raw ca = p ++ x :: sa -> Raw cb = p ++ y :: sb ->
      (Byte.to_N y < Byte.to_N x)%N ->
      CompareFlowSpecKey a b = ret BHasPrecedence) /\
  (forall x s, Raw ca = Raw cb ++ x :: s ->
      CompareFlowSpecKey a b = ret AHasPrecedence) /\
  (forall y s, Raw cb = Raw ca ++ y :: s ->
      CompareFlowSpecKey a b = ret BHasPrecedence) /\
  (Raw ca = Raw cb -> CompareFlowSpecKey a b = next) /\
  (forall t : ComponentType, isPrefixType t = false ->
      CompareFlowSpecKey {| Components := [rawComponent t [x81; x11]] |}
                         {| Components := [rawComponent t [x01; x06]] |}
      = ret BHasPrecedence).
Proof.
  intros E1 E2 W ET TP a b next.
  unfold CompareFlowSpecKey in *. subst a b next.
  rewrite (CompareFlowSpecKey_site_position _ _ _ _ _ _ E1 E2 W).
  rewrite (CompareFlowSpecKey_site_walk _ _ E2).
  simpl. rewrite <- ET, Z.ltb_irrefl, TP.
  repeat split.
  - intros p x y sa sb Ra Rb Hxy. rewrite Ra, Rb.
    apply N.ltb_lt in Hxy.
    destruct (rawLoop_first_diff p sa sb x y Hxy) as [-> _].
    now destruct (Nat.eqb _ _).
  - intros p x y sa sb Ra Rb Hyx. rewrite Ra, Rb.
    apply N.ltb_lt in Hyx.
    destruct (rawLoop_first_diff p sb sa y x Hyx) as [_ ->].
    now destruct (Nat.eqb _ _).
  - intros x s Ra. rewrite Ra.
    destruct (rawLoop_extension (Raw cb) (x :: s)) as [-> _].
    rewrite length_app; simpl.
    destruct (Nat.eqb_spec (length (Raw cb) + S (length s)) (length (Raw cb)));
      [lia|].
    destruct (Nat.ltb_spec (length (Raw cb))
                           (length (Raw cb) + S (length s))); [reflexivity|lia].
  - intros y s Rb. rewrite Rb.
    destruct (rawLoop_extension (Raw ca) (y :: s)) as [_ ->].
    rewrite length_app; simpl.
    destruct (Nat.eqb_spec (length (Raw ca))
                           (length (Raw ca) + S (length s))); [lia|].
    destruct (Nat.ltb_spec (length (Raw ca) + S (length s))
                           (length (Raw ca))); [lia|].
    destruct (Nat.ltb_spec (length (Raw ca))
                           (length (Raw ca) + S (length s))); [reflexivity|lia].
  - intros R. now rewrite R, Nat.eqb_refl, rawLoop_refl.
  - intros t Ht. unfold CompareFlowSpecKey_site; simpl.
    now rewrite Z.ltb_irrefl, Ht.
Qed.

Lemma CompareFlowSpecKey_raw_position_witness :
  CompareFlowSpecKey portLong portShort = ret AHasPrecedence.
Proof.
  destruct (CompareFlowSpecKey_raw_position
              [destination (prefix4 10 0 0 0 8)]
              [destination (prefix4 9 0 0 0 16)] [] []
              (rawComponent ComponentTypePort [x11; x00; x16])
              (rawComponent ComponentTypePort [x11; x00])
              eq_refl eq_refl eq_refl eq_refl eq_refl)
    as (_ & _ & H & _).
  apply (H x16 []). reflexivity.
Defined.

(** C9: no call of [CompareFlowSpecKey] returns from the trailing
    [return BHasPrecedence] of the raw-value branch (line 102); at a
    position with two raw values of different length the call returns from
    one of the two byte-comparison returns of the common-length loop or from
    one of the two length comparisons, the longer value winning. *)
Theorem CompareFlowSpecKey_fallback_unreachable :
  (forall a b : FSComponentList, CompareFlowSpecKey_site a b <> ret line102) /\
  (forall (pre_a pre_b ta tb : list FSComponent) (ca cb : FSComponent),
      length pre_a = length pre_b -> length ta = length tb ->
      walk pre_a pre_b = ret line107 ->
      Type_ ca = Type_ cb -> isPrefixType (Type_ ca) = false ->
      length (Raw ca) <> length (Raw cb) ->
      CompareFlowSpecKey_site {| Components := pre_a ++ ca :: ta |}
                              {| Components := pre_b ++ cb :: tb |}
      = match rawLoop (Raw ca) (Raw cb) with
        | aLower => ret line90
        | bLower => ret line93
        | loopEnd =>
            if Nat.ltb (length (Raw cb)) (length (Raw ca))
            then ret line97 else ret line100
        end).
Proof.
  split.
  - intros a b. unfold CompareFlowSpecKey_site.
    destruct (Nat.ltb _ _); try discriminate.
    destruct (Nat.ltb _ _); try discriminate.
    apply walk_not_line102.
  - intros pre_a pre_b ta tb ca cb E1 E2 W ET TP NE.
    rewrite (CompareFlowSpecKey_site_position _ _ _ _ _ _ E1 E2 W).
    simpl. rewrite <- ET, Z.ltb_irrefl, TP.
    destruct (Nat.eqb_spec (length (Raw ca)) (length (Raw cb))); [lia|].
    destruct (rawLoop (Raw ca) (Raw cb)); auto.
    destruct (Nat.ltb_spec (length (Raw cb)) (length (Raw ca))); auto.
    destruct (Nat.ltb_spec (length (Raw ca)) (length (Raw cb))); auto. lia.
Qed.

Lemma CompareFlowSpecKey_fallback_unreachable_witness :
  CompareFlowSpecKey_site portLong portLong <> ret line102 /\
  CompareFlowSpecKey_site portLong portShort = ret line97.
Proof.
  destruct CompareFlowSpecKey_fallback_unreachable as [H1 H2]. split.
  - apply H1.
  - apply (H2 [destination (prefix4 10 0 0 0 8)]
              [destination (prefix4 9 0 0 0 16)] [] []
              (rawComponent ComponentTypePort [x11; x00; x16])
              (rawComponent ComponentTypePort [x11; x00]));
      try reflexivity.
    simpl. lia.
Defined.

(** ** Sorting *)

Lemma insertLeft_permutes {A : Type} (less : A -> A -> go bool) (x : A)
    (left out : list A) :
  insertLeft less x left = ret out -> Permutation (x :: left) out.
Proof.
  revert out. induction left as [|y left IH]; simpl; intros out H.
  - injection H as <-. reflexivity.
  - destruct (less x y) as [[|]|]; simpl in H; try discriminate.
    + destruct (insertLeft less x left) as [l|]; simpl in H; try discriminate.
      injection H as <-.
      rewrite perm_swap, <- (IH l eq_refl).
      rewrite <- Permutation_cons_append. reflexivity.
    + injection H as <-.
      rewrite <- Permutation_cons_append.
      apply perm_skip. simpl. rewrite <- Permutation_cons_append.
      apply perm_skip. apply Permutation_rev.
Qed.

Lemma insertionLoop_permutes {A : Type} (less : A -> A -> go bool)
    (rest sorted out : list A) :
  insertionLoop less sorted rest = ret out -> Permutation (sorted ++ rest) out.
Proof.
  revert sorted out. induction rest as [|x rest IH]; simpl; intros sorted out H.
  - injection H as <-. now rewrite app_nil_r.
  - destruct (insertLeft less x (rev sorted)) as [s|] eqn:I; simpl in H;
      try discriminate.
    apply insertLeft_permutes in I. apply IH in H.
    rewrite <- H. rewrite <- Permutation_middle.
    apply (Permutation_app_tail rest (l := x :: sorted)). rewrite <- I.
    apply perm_skip. apply Permutation_rev.
Qed.

Lemma insertionSortLessFunc_permutes : sortSlice_permutes insertionSortLessFunc.
Proof.
  intros A less [|x l] out H; simpl in H.
  - injection H as <-. constructor.
  - now apply (insertionLoop_permutes less l [x]).
Qed.

(** Insertion sort relates every element of its output to the next one,
    for any [less] whose answers go along with [le]; no transitivity is
    asked of either. *)
Section InsertionAdjacent.

Context {A : Type}.
Variable less : A -> A -> go bool.
Variable le : A -> A -> Prop.
Hypothesis less_true : forall x y, less x y = ret true -> le x y.
Hypothesis less_false : forall x y, less x y = ret false -> le y x.

Lemma adjacent_snoc (l : list A) (y : A) :
  adjacent le l ->
  (forall p z, l = p ++ [z] -> le z y) ->
  adjacent le (l ++ [y]).
Proof.
  intros Hl Hlast p a b q E.
  induction q as [|c q _] using rev_ind.
  - change (p ++ [a; b]) with (p ++ [a] ++ [b]) in E.
    rewrite app_assoc in E. apply app_inj_tail in E as [E <-].
    now apply (Hlast p a).
  - change (p ++ a :: b :: q ++ [c]) with (p ++ (a :: b :: q) ++ [c]) in E.
    rewrite app_assoc in E. apply app_inj_tail in E as [E _].
    now apply (Hl p a b q).
Qed.

Lemma adjacent_init (l : list A) (y : A) :
  adjacent le (l ++ [y]) -> adjacent le l.
Proof.
  intros H p a b q E. apply (H p a b (q ++ [y])).
  rewrite E, <- app_assoc. reflexivity.
Qed.

Lemma adjacent_last (l : list A) (z y : A) :
  adjacent le ((l ++ [z]) ++ [y]) -> le z y.
Proof.
  intros H. apply (H l z y []). now rewrite <- app_assoc.
Qed.

Lemma insertLeft_adjacent (x : A) (left out : list A) :
  adjacent le (rev left) ->
  insertLeft less x left = ret out ->
  adjacent le out /\
  exists p z, out = p ++ [z] /\
    (z = x \/ exists left', left = z :: left' /\ le x z).
Proof.
  revert out. induction left as [|y left IH]; simpl; intros out Hl H.
  - injection H as <-. split.
    + intros [|u [|v w]] a b q E; discriminate E.
    + exists [], x. auto.
  - destruct (less x y) as [[|]|] eqn:Lxy; simpl in H; try discriminate.
    + destruct (insertLeft less x left) as [l|] eqn:I; simpl in H;
        try discriminate.
      injection H as <-.
      destruct (IH l (adjacent_init _ _ Hl) eq_refl)
        as (Al & p & z & -> & Hz).
      split.
      * apply adjacent_snoc; auto.
        intros p' z' E. apply app_inj_tail in E as [_ <-].
        destruct Hz as [->|(left' & -> & _)].
        -- now apply less_true.
        -- simpl in Hl. now apply adjacent_last in Hl.
      * exists (p ++ [z]), y. split; auto. right. exists left.
        split; auto.
    + injection H as <-. split.
      * apply adjacent_snoc; auto.
        intros p z E. apply app_inj_tail in E as [_ <-].
        now apply less_false.
      * exists (rev left ++ [y]), x. auto.
Qed.

Lemma insertionLoop_adjacent (rest sorted out : list A) :
  adjacent le sorted ->
  insertionLoop less sorted rest = ret out -> adjacent le out.
Proof.
  revert sorted out.
  induction rest as [|x rest IH]; simpl; intros sorted out Hs H.
  - now injection H as <-.
  - destruct (insertLeft less x (rev sorted)) as [s|] eqn:I; simpl in H;
      try discriminate.
    apply insertLeft_adjacent in I as [Hadj _].
    + now apply (IH s).
    + now rewrite rev_involutive.
Qed.

Lemma insertionSortLessFunc_adjacent (l out : list A) :
  insertionSortLessFunc A less l = ret out -> adjacent le out.
Proof.
  destruct l as [|x l]; simpl; intros H.
  - injection H as <-. intros [|u w] a b q E; discriminate E.
  - apply (insertionLoop_adjacent l [x]); auto.
    intros [|u [|v w]] a b q E; discriminate E.
Qed.

End InsertionAdjacent.

(** On the insertion-sort path of [sort.Slice], a sort that returns gives
    a permutation in which every key precedes or equals the next one. *)
Lemma SortFlowSpecs_insertion_adjacent (list out : list FSComponentList) :
  SortFlowSpecs insertionSortLessFunc list = ret out ->
  Permutation list out /\ adjacent precedesOrEqual out.
Proof.
  unfold SortFlowSpecs. intros H. split.
  - now apply insertionSortLessFunc_permutes in H.
  - revert H. apply insertionSortLessFunc_adjacent; intros x y;
      unfold precedesOrEqual.
    + destruct (CompareFlowSpecKey x y) as [r|]; simpl; try discriminate.
      intros E. injection E as E. apply Z.ltb_lt in E.
      exists r. split; [reflexivity|lia].
    + rewrite (CompareFlowSpecKey_swap x y).
      destruct (CompareFlowSpecKey x y) as [r|]; simpl; try discriminate.
      intros E. injection E as E. apply Z.ltb_ge in E.
      exists (- r). split; [reflexivity|lia].
Qed.

Lemma cycle_keys_distinct :
  cycleA <> cycleB /\ cycleA <> cycleC /\ cycleB <> cycleC.
Proof. repeat split; discriminate. Qed.

(** C5, evaluated on the code: sorting [cycleA; cycleB; cycleC] leaves the
    slice as it is, each key preceding the next, while the last key
    precedes the first; and whatever permutation a sort returns for
    these three keys, some key in it comes after a key it strictly
    precedes, so no output is ordered from highest to lowest precedence. *)
Theorem SortFlowSpecs_not_ordered :
  (SortFlowSpecs insertionSortLessFunc [cycleA; cycleB; cycleC]
     = ret [cycleA; cycleB; cycleC] /\
   CompareFlowSpecKey cycleA cycleB = ret AHasPrecedence /\
   CompareFlowSpecKey cycleB cycleC = ret AHasPrecedence /\
   CompareFlowSpecKey cycleC cycleA = ret AHasPrecedence) /\
  (forall (sort_Slice : sortSlice) (out : list FSComponentList),
      sortSlice_permutes sort_Slice ->
      SortFlowSpecs sort_Slice [cycleA; cycleB; cycleC] = ret out ->
      exists pre x mid y post,
        out = pre ++ x :: mid ++ y :: post /\
        CompareFlowSpecKey y x = ret AHasPrecedence).
Proof.
  split; [repeat split; vm_compute; reflexivity|].
  intros sort_Slice out HP HS. apply HP in HS.
  pose proof (Permutation_length HS) as HL.
  destruct out as [|x [|y [|z [|w out]]]]; try discriminate HL.
  assert (IA : In cycleA [x; y; z])
    by (apply (Permutation_in _ HS); simpl; auto).
  assert (IB : In cycleB [x; y; z])
    by (apply (Permutation_in _ HS); simpl; auto).
  assert (IC : In cycleC [x; y; z])
    by (apply (Permutation_in _ HS); simpl; auto).
  destruct cycle_keys_distinct as (AB & AC & BC).
  simpl in IA, IB, IC.
  destruct IA as [IA|[IA|[IA|[]]]], IB as [IB|[IB|[IB|[]]]],
           IC as [IC|[IC|[IC|[]]]]; subst; try congruence;
    match goal with
    | |- exists pre x mid y post, [?a; ?b; ?c] = _ /\ _ =>
        first
          [ now (exists [], a, [], b, [c]; split;
                 [reflexivity|vm_compute; reflexivity])
          | now (exists [], a, [b], c, []; split;
                 [reflexivity|vm_compute; reflexivity])
          | now (exists [a], b, [], c, []; split;
                 [reflexivity|vm_compute; reflexivity]) ]
    end.
Qed.

Lemma SortFlowSpecs_not_ordered_witness :
  exists pre x mid y post,
    [cycleA; cycleB; cycleC] = pre ++ x :: mid ++ y :: post /\
    CompareFlowSpecKey y x = ret AHasPrecedence.
Proof.
  destruct SortFlowSpecs_not_ordered as [[E _] H].
  exact (H insertionSortLessFunc [cycleA; cycleB; cycleC]
           insertionSortLessFunc_permutes E).
Defined.

(** ** Feasibility: the claims *)

(** C6: without a destination prefix the result is success when
    AllowNoDestPrefix is set and ErrNoDestinationPrefix otherwise, whatever
    the RIB holds; with a destination prefix for which the RIB has no best
    path the result is ErrNoBestUnicast. *)
Theorem ValidateFeasibility_rule_a (fs : FlowSpecRoute.t) (rib : UnicastRIB)
    (cfg : option Config) :
  (FlowSpecRoute.DestPrefix fs = None ->
   ValidateFeasibility fs rib cfg =
     if AllowNoDestPrefix (configOrDefault cfg) then ret None
     else ret (Some ErrNoDestinationPrefix)) /\
  (forall dst, FlowSpecRoute.DestPrefix fs = Some dst ->
               BestPath rib dst = None ->
               ValidateFeasibility fs rib cfg = ret (Some ErrNoBestUnicast)).
Proof.
  unfold ValidateFeasibility. split.
  - intros ->. now destruct (AllowNoDestPrefix (configOrDefault cfg)).
  - intros dst -> ->. reflexivity.
Qed.

Lemma ValidateFeasibility_rule_a_witness :
  ValidateFeasibility (rule None false [] originator1) (ribWith None [None])
    (Some (config true true)) = ret None /\
  ValidateFeasibility (rule None false [] originator1) (ribWith None [None])
    None = ret (Some ErrNoDestinationPrefix) /\
  ValidateFeasibility (rule (Some dst_192_88_99) false [] originator1)
    (ribWith None [None]) None = ret (Some ErrNoBestUnicast).
Proof.
  split; [|split].
  - apply (ValidateFeasibility_rule_a (rule None false [] originator1)
             (ribWith None [None]) (Some (config true true))).
    reflexivity.
  - apply (ValidateFeasibility_rule_a (rule None false [] originator1)
             (ribWith None [None]) None).
    reflexivity.
  - apply (ValidateFeasibility_rule_a
             (rule (Some dst_192_88_99) false [] originator1)
             (ribWith None [None]) None) with (dst := dst_192_88_99);
      reflexivity.
Defined.

(** C7: with a destination prefix and a best path for it: when
    EnableEmptyOrConfed is set, the rule is not from eBGP and its AS_PATH is
    empty, the result is that of the code from RuleCCheck on, whatever the
    originators; in every other case a best-path originator that differs
    from the rule's gives ErrOriginatorValidationFailed, whatever the
    more-specific routes and AS_PATHs, and equal originators give the result
    of the code from RuleCCheck on. *)
Theorem ValidateFeasibility_rule_b (fs : FlowSpecRoute.t) (rib : UnicastRIB)
    (cfg : option Config) (dst : netip.Prefix) (best : UnicastRoute.t) :
  FlowSpecRoute.DestPrefix fs = Some dst ->
  BestPath rib dst = Some best ->
  let relaxed :=
    EnableEmptyOrConfed (configOrDefault cfg) = true /\
    FlowSpecRoute.FromEBGP fs = false /\ FlowSpecRoute.ASPath fs = [] in
  let sameOriginator :=
    net.Equal (UnicastRoute.OriginatorID best)
              (FlowSpecRoute.OriginatorID fs) in
  (relaxed -> ValidateFeasibility fs rib cfg = RuleCCheck fs rib best dst) /\
  (~ relaxed -> sameOriginator = false ->
   ValidateFeasibility fs rib cfg = ret (Some ErrOriginatorValidationFailed)) /\
  (~ relaxed -> sameOriginator = true ->
   ValidateFeasibility fs rib cfg = RuleCCheck fs rib best dst).
Proof.
  intros D B relaxed sameOriginator. subst relaxed sameOriginator.
  unfold ValidateFeasibility. rewrite D, B.
  repeat split.
  - intros (-> & -> & ->). reflexivity.
  - intros NR NE. rewrite NE.
    destruct (EnableEmptyOrConfed (configOrDefault cfg)),
             (FlowSpecRoute.FromEBGP fs), (FlowSpecRoute.ASPath fs);
      simpl; try reflexivity.
    elim NR. auto.
  - intros NR EQ. rewrite EQ.
    destruct (EnableEmptyOrConfed (configOrDefault cfg)),
             (FlowSpecRoute.FromEBGP fs), (FlowSpecRoute.ASPath fs);
      simpl; reflexivity.
Qed.

Lemma ValidateFeasibility_rule_b_witness :
  ValidateFeasibility (rule (Some dst_192_88_99) false [] originator2)
    (ribWith (Some bestRoute) []) None = ret None /\
  ValidateFeasibility (rule (Some dst_192_88_99) false [] originator2)
    (ribWith (Some bestRoute) [None]) (Some (config false false))
  = ret (Some ErrOriginatorValidationFailed).
Proof.
  split.
  - destruct (ValidateFeasibility_rule_b
                (rule (Some dst_192_88_99) false [] originator2)
                (ribWith (Some bestRoute) []) None dst_192_88_99 bestRoute
                eq_refl eq_refl) as (H & _).
    apply H. split; [reflexivity|split; reflexivity].
  - destruct (ValidateFeasibility_rule_b
                (rule (Some dst_192_88_99) false [] originator2)
                (ribWith (Some bestRoute) [None]) (Some (config false false))
                dst_192_88_99 bestRoute eq_refl eq_refl) as (_ & H & _).
    apply H.
    + intros (E & _). discriminate E.
    + reflexivity.
Defined.

Lemma moreSpecificsLoop_same_AS (best : UnicastRoute.t)
    (more : list (option UnicastRoute.t)) :
  Forall (fun r => exists u, r = Some u /\
                     UnicastRoute.NeighborAS u = UnicastRoute.NeighborAS best)
         more ->
  moreSpecificsLoop best more = ret None.
Proof.
  induction 1 as [|r more (u & -> & E) _ IH]; simpl; auto.
  now rewrite E, Z.eqb_refl.
Qed.

(** C8: for a rule that passed steps a to c: if it came over eBGP, the
    result is ErrLeftMostASMismatch exactly when the best path's AS_PATH is
    empty, or the rule's AS_PATH is empty, or the two first AS numbers
    differ, and success otherwise; if it did not come over eBGP, the result
    is success. *)
Theorem ValidateFeasibility_left_most_AS (fs : FlowSpecRoute.t)
    (rib : UnicastRIB) (cfg : option Config) (dst : netip.Prefix)
    (best : UnicastRoute.t) :
  passesRulesABC fs rib cfg dst best ->
  let mismatch :=
    UnicastRoute.ASPath best = [] \/ FlowSpecRoute.ASPath fs = [] \/
    (exists fs0 fsRest best0 bestRest,
        FlowSpecRoute.ASPath fs = fs0 :: fsRest /\
        UnicastRoute.ASPath best = best0 :: bestRest /\ fs0 <> best0) in
  (FlowSpecRoute.FromEBGP fs = true ->
   (ValidateFeasibility fs rib cfg = ret (Some ErrLeftMostASMismatch)
    <-> mismatch) /\
   (~ mismatch -> ValidateFeasibility fs rib cfg = ret None)) /\
  (FlowSpecRoute.FromEBGP fs = false ->
   ValidateFeasibility fs rib cfg = ret None).
Proof.
  intros (D & B & O & M) mismatch.
  assert (V : ValidateFeasibility fs rib cfg = ret (leftMostASCheck fs best)).
  { unfold ValidateFeasibility, RuleCCheck. rewrite D, B.
    rewrite (moreSpecificsLoop_same_AS _ _ M). simpl.
    destruct O as [ (-> & -> & ->) | -> ]; simpl; auto.
    now destruct (_ && _ && _). }
  rewrite V. unfold leftMostASCheck. subst mismatch. split.
  - intros ->.
    destruct (UnicastRoute.ASPath best) as [|best0 bestRest].
    { split; [split; auto|]. intros N. elim N. auto. }
    destruct (FlowSpecRoute.ASPath fs) as [|fs0 fsRest].
    { split; [split; auto|]. intros N. elim N. auto. }
    destruct (Z.eqb_spec fs0 best0) as [E|E]; simpl.
    + split; [|reflexivity]. split; [discriminate|].
      intros [H|[H|(a & b & c & d & H1 & H2 & H3)]]; try discriminate.
      congruence.
    + split.
      * split; auto. intros _. right. right.
        exists fs0, fsRest, best0, bestRest. auto.
      * intros N. elim N. right. right.
        exists fs0, fsRest, best0, bestRest. auto.
  - intros ->. reflexivity.
Qed.

Lemma ValidateFeasibility_left_most_AS_witness :
  ValidateFeasibility (rule (Some dst_192_88_99) true [65002; 65001] originator1)
    (ribWith (Some bestRoute) [Some otherRoute]) None
  = ret (Some ErrLeftMostASMismatch) /\
  ValidateFeasibility (rule (Some dst_192_88_99) false [65002] originator1)
    (ribWith (Some bestRoute) [Some otherRoute]) None
  = ret None.
Proof.
  split.
  - destruct (ValidateFeasibility_left_most_AS
                (rule (Some dst_192_88_99) true [65002; 65001] originator1)
                (ribWith (Some bestRoute) [Some otherRoute]) None
                dst_192_88_99 bestRoute) as ([[_ H] _] & _).
    + split; [reflexivity|split; [reflexivity|split]].
      * right. reflexivity.
      * repeat constructor. exists otherRoute. split; reflexivity.
    + reflexivity.
    + apply H. right. right. exists 65002, [65001], 65001, [64512].
      split; [reflexivity|split; [reflexivity|lia]].
  - destruct (ValidateFeasibility_left_most_AS
                (rule (Some dst_192_88_99) false [65002] originator1)
                (ribWith (Some bestRoute) [Some otherRoute]) None
                dst_192_88_99 bestRoute) as (_ & H).
    + split; [reflexivity|split; [reflexivity|split]].
      * right. reflexivity.
      * repeat constructor. exists otherRoute. split; reflexivity.
    + apply H. reflexivity.
Defined.

(** C10: for a rule that came over eBGP, two configurations that differ at
    most in EnableEmptyOrConfed give the same result on every RIB. *)
Theorem ValidateFeasibility_eBGP_ignores_relaxation (fs : FlowSpecRoute.t)
    (rib : UnicastRIB) (cfg1 cfg2 : Config) :
  FlowSpecRoute.FromEBGP fs = true ->
  AllowNoDestPrefix cfg1 = AllowNoDestPrefix cfg2 ->
  ASPathPolicy_ cfg1 = ASPathPolicy_ cfg2 ->
  ValidateFeasibility fs rib (Some cfg1) = ValidateFeasibility fs rib (Some cfg2).
Proof.
  intros E A _. unfold ValidateFeasibility; simpl. rewrite E, A.
  now rewrite !andb_false_r.
Qed.

Lemma ValidateFeasibility_eBGP_ignores_relaxation_witness :
  ValidateFeasibility (rule (Some dst_192_88_99) true [] originator2)
    (ribWith (Some bestRoute) []) (Some (config false true))
  = ValidateFeasibility (rule (Some dst_192_88_99) true [] originator2)
      (ribWith (Some bestRoute) []) (Some (config false false)).
Proof.
  apply (ValidateFeasibility_eBGP_ignores_relaxation
           (rule (Some dst_192_88_99) true [] originator2)
           (ribWith (Some bestRoute) []) (config false true)
           (config false false)); reflexivity.
Defined.

(** * Further properties of the code *)

(** ** The comparator, position by position *)

Lemma walk_cons (ca cb : FSComponent) (ta tb : list FSComponent) :
  go_map site_value (walk (ca :: ta) (cb :: tb)) =
  go_bind (comparePosition ca cb)
    (fun d => if d =? 0 then go_map site_value (walk ta tb) else ret d).
Proof.
  unfold comparePosition. simpl.
  repeat match goal with
  | |- context [if ?c then _ else _] =>
      lazymatch c with
      | (_ =? 0)%Z => fail
      | _ => destruct c
      end
  | |- context [match Prefix ?c with _ => _ end] => destruct (Prefix c)
  | |- context [match rawLoop ?x ?y with _ => _ end] => destruct (rawLoop x y)
  end; reflexivity.
Qed.

Lemma string_lt_trans (s t u : String.string) :
  netip.string_lt s t = true -> netip.string_lt t u = true ->
  netip.string_lt s u = true.
Proof.
  unfold netip.string_lt. intros H1 H2.
  assert (L1 : OrderedTypeEx.String_as_OT.lt s t).
  { apply OrderedTypeEx.String_as_OT.cmp_lt.
    unfold OrderedTypeEx.String_as_OT.cmp.
    destruct (String.compare s t); congruence. }
  assert (L2 : OrderedTypeEx.String_as_OT.lt t u).
  { apply OrderedTypeEx.String_as_OT.cmp_lt.
    unfold OrderedTypeEx.String_as_OT.cmp.
    destruct (String.compare t u); congruence. }
  pose proof (OrderedTypeEx.String_as_OT.lt_trans _ _ _ L1 L2) as L3.
  apply OrderedTypeEx.String_as_OT.cmp_lt in L3.
  unfold OrderedTypeEx.String_as_OT.cmp in L3. now rewrite L3.
Qed.

Lemma Less_trans (a b c : netip.Addr) :
  netip.Less a b = true -> netip.Less b c = true -> netip.Less a c = true.
Proof.
  unfold netip.Less, netip.Compare.
  destruct a as [[ah al] az], b as [[bh bl] bz], c as [[ch cl] cz]; simpl.
  unfold netip.BitLen, netip.Is6, netip.Zone; simpl.
  destruct az, bz; simpl; try discriminate;
    destruct cz; simpl; try discriminate; try reflexivity;
    destruct (Z.ltb_spec ah bh), (Z.ltb_spec bh ah);
    try lia; try discriminate;
    destruct (Z.ltb_spec bh ch), (Z.ltb_spec ch bh);
    try lia; try discriminate;
    destruct (Z.ltb_spec ah ch), (Z.ltb_spec ch ah);
    try lia; try discriminate; try reflexivity;
    destruct (Z.ltb_spec al bl), (Z.ltb_spec bl al);
    try lia; try discriminate;
    destruct (Z.ltb_spec bl cl), (Z.ltb_spec cl bl);
    try lia; try discriminate;
    destruct (Z.ltb_spec al cl), (Z.ltb_spec cl al);
    try lia; try discriminate; try reflexivity.
  destruct (netip.string_lt zoneV6 zoneV0) eqn:S1;
    [|destruct (netip.string_lt zoneV0 zoneV6); discriminate].
  destruct (netip.string_lt zoneV0 zoneV1) eqn:S2;
    [|destruct (netip.string_lt zoneV1 zoneV0); discriminate].
  now rewrite (string_lt_trans _ _ _ S1 S2).
Qed.

Lemma addrOrder_trans (a b c : netip.Addr) :
  addrOrder a b <= 0 -> addrOrder b c <= 0 ->
  addrOrder a c <= 0 /\
  (addrOrder a c = 0 <-> addrOrder a b = 0 /\ addrOrder b c = 0).
Proof.
  unfold addrOrder.
  destruct (netip.Less a b) eqn:Lab.
  - pose proof (Less_asym _ _ Lab) as Lba.
    destruct (netip.Less b c) eqn:Lbc.
    + rewrite (Less_trans _ _ _ Lab Lbc). lia.
    + destruct (netip.Less c b) eqn:Lcb; [lia|].
      rewrite <- (Less_total _ _ Lbc Lcb), Lab. lia.
  - destruct (netip.Less b a) eqn:Lba; [lia|].
    rewrite (Less_total _ _ Lab Lba).
    destruct (netip.Less b c); [lia|].
    destruct (netip.Less c b); lia.
Qed.

Lemma addrOrder_zero (a b : netip.Addr) : addrOrder a b = 0 <-> a = b.
Proof.
  unfold addrOrder. split.
  - destruct (netip.Less a b) eqn:Lab; [discriminate|].
    destruct (netip.Less b a) eqn:Lba; [discriminate|].
    intros _. now apply Less_total.
  - intros ->. now rewrite Less_irrefl.
Qed.

Lemma rawLoop_rawOrder (araw braw : list byte) :
  rawOrder araw braw =
  match rawLoop araw braw with
  | aLower => -1
  | bLower => 1
  | loopEnd =>
      if Nat.eqb (length araw) (length braw) then 0
      else if Nat.ltb (length braw) (length araw) then -1 else 1
  end.
Proof.
  revert braw. induction araw as [|x araw IH]; intros [|y braw]; simpl; auto.
  destruct (byte_ltb x y); auto. destruct (byte_ltb y x); auto.
Qed.

Lemma rawOrder_zero (araw braw : list byte) :
  rawOrder araw braw = 0 <-> araw = braw.
Proof.
  revert braw. induction araw as [|x araw IH]; intros [|y braw]; simpl;
    try (split; [discriminate|discriminate]); try tauto.
  destruct (byte_ltb x y) eqn:Hxy.
  - split; [discriminate|]. intros E. injection E as -> ->.
    now rewrite byte_ltb_irrefl in Hxy.
  - destruct (byte_ltb y x) eqn:Hyx.
    + split; [discriminate|]. intros E. injection E as -> ->.
      now rewrite byte_ltb_irrefl in Hyx.
    + rewrite IH, (byte_ltb_total _ _ Hxy Hyx). split; congruence.
Qed.

Lemma byte_ltb_trans (x y z : byte) :
  byte_ltb x y = true -> byte_ltb y z = true -> byte_ltb x z = true.
Proof.
  unfold byte_ltb. rewrite !N.ltb_lt. lia.
Qed.

Lemma rawOrder_trans (araw braw craw : list byte) :
  rawOrder araw braw <= 0 -> rawOrder braw craw <= 0 ->
  rawOrder araw craw <= 0 /\
  (rawOrder araw craw = 0 <->
   rawOrder araw braw = 0 /\ rawOrder braw craw = 0).
Proof.
  revert braw craw.
  induction araw as [|x araw IH]; intros [|y braw] [|z craw]; simpl;
    try lia.
  destruct (byte_ltb x y) eqn:Hxy.
  - pose proof (byte_ltb_asym _ _ Hxy) as Hyx.
    destruct (byte_ltb y z) eqn:Hyz.
    + rewrite (byte_ltb_trans _ _ _ Hxy Hyz). lia.
    + destruct (byte_ltb z y) eqn:Hzy; [lia|].
      rewrite <- (byte_ltb_total _ _ Hyz Hzy), Hxy. lia.
  - destruct (byte_ltb y x) eqn:Hyx; [lia|].
    rewrite (byte_ltb_total _ _ Hxy Hyx).
    destruct (byte_ltb y z); [lia|].
    destruct (byte_ltb z y); [lia|].
    apply IH.
Qed.

Lemma comparePosition_type_lt (ca cb : FSComponent) :
  Type_ ca < Type_ cb -> comparePosition ca cb = ret (-1).
Proof.
  intros H. unfold comparePosition; simpl.
  destruct (Z.ltb_spec (Type_ ca) (Type_ cb)); [reflexivity|lia].
Qed.

Lemma comparePosition_type_gt (ca cb : FSComponent) :
  Type_ cb < Type_ ca -> comparePosition ca cb = ret 1.
Proof.
  intros H. unfold comparePosition; simpl.
  destruct (Z.ltb_spec (Type_ ca) (Type_ cb)); [lia|].
  destruct (Z.ltb_spec (Type_ cb) (Type_ ca)); [reflexivity|lia].
Qed.

Lemma comparePosition_raw (ca cb : FSComponent) :
  Type_ ca = Type_ cb -> isPrefixType (Type_ ca) = false ->
  comparePosition ca cb = ret (rawOrder (Raw ca) (Raw cb)).
Proof.
  intros ET TP. unfold comparePosition; simpl.
  rewrite <- ET, Z.ltb_irrefl, TP, rawLoop_rawOrder.
  destruct (Nat.eqb _ _); destruct (rawLoop _ _); try reflexivity.
  destruct (Nat.ltb_spec (length (Raw cb)) (length (Raw ca)));
    try reflexivity.
  destruct (Nat.ltb_spec (length (Raw ca)) (length (Raw cb))); reflexivity.
Qed.

Lemma comparePosition_same_bits (ca cb : FSComponent) (pa pb : netip.Prefix) :
  Type_ ca = Type_ cb -> isPrefixType (Type_ ca) = true ->
  Prefix ca = Some pa -> Prefix cb = Some pb ->
  netip.Bits pa = netip.Bits pb ->
  comparePosition ca cb =
    ret (addrOrder (netip.Addr_of pa) (netip.Addr_of pb)).
Proof.
  intros ET TP Pa Pb EB. unfold comparePosition, addrOrder; simpl.
  rewrite <- ET, Z.ltb_irrefl, TP, Pa, Pb, EB.
  rewrite Z.gtb_ltb, Z.ltb_irrefl, Z.eqb_refl. simpl.
  destruct (netip.Less _ _); [reflexivity|].
  destruct (netip.Less _ _); reflexivity.
Qed.

(** One position is transitive on components whose prefixes have the
    length their type asks for. *)
Lemma comparePosition_trans (n : ComponentType -> Z) (ca cb cc : FSComponent)
    (d1 d2 : Z) :
  uniformBits n {| Components := [ca; cb; cc] |} ->
  comparePosition ca cb = ret d1 -> comparePosition cb cc = ret d2 ->
  d1 <= 0 -> d2 <= 0 ->
  exists d3, comparePosition ca cc = ret d3 /\ d3 <= 0 /\
             (d3 = 0 <-> d1 = 0 /\ d2 = 0).
Proof.
  unfold uniformBits; simpl. intros U.
  inversion U as [|? ? Ua U1]; subst. inversion U1 as [|? ? Ub U2]; subst.
  inversion U2 as [|? ? Uc _]; subst. clear U U1 U2.
  destruct (Z.lt_trichotomy (Type_ ca) (Type_ cb)) as [T1|[T1|T1]].
  - rewrite (comparePosition_type_lt _ _ T1). intros E1. injection E1 as <-.
    destruct (Z.lt_trichotomy (Type_ cb) (Type_ cc)) as [T2|[T2|T2]].
    + rewrite (comparePosition_type_lt ca cc) by lia.
      intros _ _ _. exists (-1). repeat split; lia.
    + rewrite (comparePosition_type_lt ca cc) by lia.
      intros _ _ _. exists (-1). repeat split; lia.
    + rewrite (comparePosition_type_gt _ _ T2). intros E2.
      injection E2 as <-. lia.
  - destruct (Z.lt_trichotomy (Type_ cb) (Type_ cc)) as [T2|[T2|T2]].
    + rewrite (comparePosition_type_lt _ _ T2). intros _ E2.
      injection E2 as <-.
      rewrite (comparePosition_type_lt ca cc) by lia.
      intros _ _. exists (-1). repeat split; lia.
    + destruct (isPrefixType (Type_ ca)) eqn:TP.
      * destruct (Ua eq_refl) as (pa & Pa & Ba).
        destruct Ub as (pb & Pb & Bb); [congruence|].
        destruct Uc as (pc & Pc & Bc); [congruence|].
        rewrite (comparePosition_same_bits ca cb pa pb),
                (comparePosition_same_bits cb cc pb pc),
                (comparePosition_same_bits ca cc pa pc);
          try congruence.
        intros E1 E2. injection E1 as <-. injection E2 as <-.
        intros H1 H2. eexists. split; [reflexivity|].
        now apply addrOrder_trans.
      * rewrite (comparePosition_raw ca cb), (comparePosition_raw cb cc),
                (comparePosition_raw ca cc); try congruence.
        intros E1 E2. injection E1 as <-. injection E2 as <-.
        intros H1 H2. eexists. split; [reflexivity|].
        now apply rawOrder_trans.
    + rewrite (comparePosition_type_gt _ _ T2). intros _ E2.
      injection E2 as <-. lia.
  - rewrite (comparePosition_type_gt _ _ T1). intros E1. injection E1 as <-.
    lia.
Qed.

Lemma walk_value_trans (n : ComponentType -> Z)
    (acomps bcomps ccomps : list FSComponent) (r1 r2 : Z) :
  length acomps = length bcomps -> length bcomps = length ccomps ->
  uniformBits n {| Components := acomps |} ->
  uniformBits n {| Components := bcomps |} ->
  uniformBits n {| Components := ccomps |} ->
  go_map site_value (walk acomps bcomps) = ret r1 ->
  go_map site_value (walk bcomps ccomps) = ret r2 ->
  r1 <= 0 -> r2 <= 0 ->
  exists r3, go_map site_value (walk acomps ccomps) = ret r3 /\ r3 <= 0 /\
             (r3 = 0 <-> r1 = 0 /\ r2 = 0).
Proof.
  revert bcomps ccomps r1 r2.
  induction acomps as [|ca acomps IH]; intros [|cb bcomps] [|cc ccomps] r1 r2;
    simpl length; try discriminate.
  - intros _ _ _ _ _ E1 E2 _ _. simpl in *.
    injection E1 as <-. injection E2 as <-.
    exists 0. repeat split; reflexivity.
  - intros L1 L2 Ua Ub Uc. injection L1 as L1. injection L2 as L2.
    unfold uniformBits in Ua, Ub, Uc; simpl in Ua, Ub, Uc.
    inversion Ua as [|? ? Ua0 Ua']; subst.
    inversion Ub as [|? ? Ub0 Ub']; subst.
    inversion Uc as [|? ? Uc0 Uc']; subst.
    rewrite !walk_cons.
    destruct (comparePosition ca cb) as [d1|] eqn:P1; simpl;
      try discriminate.
    destruct (comparePosition cb cc) as [d2|] eqn:P2; simpl;
      try discriminate.
    intros E1 E2 H1 H2.
    assert (D1 : d1 <= 0).
    { destruct (Z.eqb_spec d1 0); [lia|]. injection E1 as <-. lia. }
    assert (D2 : d2 <= 0).
    { destruct (Z.eqb_spec d2 0); [lia|]. injection E2 as <-. lia. }
    destruct (comparePosition_trans n ca cb cc d1 d2) as (d3 & -> & D3 & Z3);
      auto.
    { unfold uniformBits; simpl. auto. }
    simpl.
    destruct (Z.eqb_spec d1 0) as [Z1|Z1].
    + destruct (Z.eqb_spec d2 0) as [Z2|Z2].
      * destruct (Z.eqb_spec d3 0) as [_|N3]; [|tauto].
        apply (IH bcomps ccomps r1 r2); auto.
      * injection E2 as <-.
        destruct (Z.eqb_spec d3 0) as [E3|_]; [tauto|].
        exists d3. repeat split; try lia; tauto.
    + injection E1 as <-.
      destruct (Z.eqb_spec d3 0) as [E3|_]; [tauto|].
      exists d3. repeat split; try lia; tauto.
Qed.

Lemma CompareFlowSpecKey_range (a b : FSComponentList) (r : Z) :
  CompareFlowSpecKey a b = ret r -> r = -1 \/ r = 0 \/ r = 1.
Proof.
  unfold CompareFlowSpecKey.
  destruct (CompareFlowSpecKey_site a b) as [s|]; simpl; try discriminate.
  intros E. injection E as <-. destruct s; simpl; auto.
Qed.

Lemma CompareFlowSpecKey_value_trans (n : ComponentType -> Z)
    (a b c : FSComponentList) (r1 r2 : Z) :
  uniformBits n a -> uniformBits n b -> uniformBits n c ->
  CompareFlowSpecKey a b = ret r1 -> CompareFlowSpecKey b c = ret r2 ->
  r1 <= 0 -> r2 <= 0 ->
  exists r3, CompareFlowSpecKey a c = ret r3 /\ r3 <= 0 /\
             (r3 = 0 <-> r1 = 0 /\ r2 = 0).
Proof.
  destruct a as [acomps], b as [bcomps], c as [ccomps].
  unfold CompareFlowSpecKey, CompareFlowSpecKey_site; simpl.
  intros Ua Ub Uc.
  destruct (Nat.ltb_spec (length bcomps) (length acomps)) as [L1|L1];
    simpl.
  - intros E1. injection E1 as <-.
    destruct (Nat.ltb_spec (length ccomps) (length bcomps)) as [L2|L2];
      simpl.
    + intros E2. injection E2 as <-. intros _ _.
      destruct (Nat.ltb_spec (length ccomps) (length acomps)); [|lia].
      exists (-1). repeat split; simpl; try lia.
      unfold AHasPrecedence. lia.
    + destruct (Nat.ltb_spec (length bcomps) (length ccomps)) as [L3|L3];
        simpl.
      * intros E2. injection E2 as <-. unfold BHasPrecedence. lia.
      * intros _ _ _.
        destruct (Nat.ltb_spec (length ccomps) (length acomps)); [|lia].
        exists (-1). repeat split; simpl; try lia.
        unfold AHasPrecedence. lia.
  - destruct (Nat.ltb_spec (length acomps) (length bcomps)) as [L1'|L1'];
      simpl.
    + intros E1. injection E1 as <-. unfold BHasPrecedence. lia.
    + destruct (Nat.ltb_spec (length ccomps) (length bcomps)) as [L2|L2];
        simpl.
      * intros _ E2. injection E2 as <-. intros _ _.
        destruct (Nat.ltb_spec (length ccomps) (length acomps)); [|lia].
        exists (-1). repeat split; simpl; try lia.
        unfold AHasPrecedence. lia.
      * destruct (Nat.ltb_spec (length bcomps) (length ccomps)) as [L3|L3];
          simpl.
        -- intros _ E2. injection E2 as <-. unfold BHasPrecedence. lia.
        -- destruct (Nat.ltb_spec (length ccomps) (length acomps)); [lia|].
           destruct (Nat.ltb_spec (length acomps) (length ccomps)); [lia|].
           apply (walk_value_trans n); auto; lia.
Qed.

(** X1: the comparator is transitive on keys whose prefixes all have the
    length their component type asks for (so on keys without prefix
    components too): A-precedes or Equal twice gives A-precedes or Equal,
    and Equal only from two Equal. *)
Theorem CompareFlowSpecKey_transitive_uniform (n : ComponentType -> Z)
    (a b c : FSComponentList) :
  uniformBits n a -> uniformBits n b -> uniformBits n c ->
  (CompareFlowSpecKey a b = ret AHasPrecedence \/
   CompareFlowSpecKey a b = ret Equal) ->
  (CompareFlowSpecKey b c = ret AHasPrecedence \/
   CompareFlowSpecKey b c = ret Equal) ->
  (CompareFlowSpecKey a c = ret AHasPrecedence \/
   CompareFlowSpecKey a c = ret Equal) /\
  (CompareFlowSpecKey a c = ret Equal <->
   CompareFlowSpecKey a b = ret Equal /\ CompareFlowSpecKey b c = ret Equal).
Proof.
  intros Ua Ub Uc H1 H2.
  assert (R1 : exists r1, CompareFlowSpecKey a b = ret r1 /\ r1 <= 0)
    by (destruct H1 as [ -> | -> ]; eexists; split;
        try reflexivity; unfold AHasPrecedence, Equal; lia).
  assert (R2 : exists r2, CompareFlowSpecKey b c = ret r2 /\ r2 <= 0)
    by (destruct H2 as [ -> | -> ]; eexists; split;
        try reflexivity; unfold AHasPrecedence, Equal; lia).
  destruct R1 as (r1 & E1 & L1), R2 as (r2 & E2 & L2).
  destruct (CompareFlowSpecKey_value_trans n a b c r1 r2)
    as (r3 & E3 & L3 & Z3); auto.
  rewrite E1, E2, E3. unfold AHasPrecedence, Equal.
  destruct (CompareFlowSpecKey_range _ _ _ E3) as [ -> | [ -> | -> ] ];
    try lia.
  - split; [now left|]. split.
    + discriminate.
    + intros [F1 F2]. injection F1 as ->. injection F2 as ->. lia.
  - split; [now right|]. split; [|reflexivity].
    intros _. destruct Z3 as [Z3 _]. destruct (Z3 eq_refl) as [-> ->].
    split; reflexivity.
Qed.

Lemma CompareFlowSpecKey_transitive_uniform_witness :
  (CompareFlowSpecKey net9 net10_2 = ret AHasPrecedence \/
   CompareFlowSpecKey net9 net10_2 = ret Equal) /\
  (CompareFlowSpecKey net9 net10_2 = ret Equal <->
   CompareFlowSpecKey net9 net10_1 = ret Equal /\
   CompareFlowSpecKey net10_1 net10_2 = ret Equal).
Proof.
  apply (CompareFlowSpecKey_transitive_uniform (fun _ => 16)
           net9 net10_1 net10_2).
  - repeat constructor. intros _. eexists. split; reflexivity.
  - repeat constructor. intros _. eexists. split; reflexivity.
  - repeat constructor. intros _. eexists. split; reflexivity.
  - left. reflexivity.
  - left. reflexivity.
Defined.

(** X2: swapping the two keys, with no condition on them: the swapped call
    panics exactly when the call does, and returns [- r] exactly when the
    call returns [r]. *)
Theorem CompareFlowSpecKey_swap_outcomes (a b : FSComponentList) :
  (CompareFlowSpecKey b a = panic <-> CompareFlowSpecKey a b = panic) /\
  (forall r, CompareFlowSpecKey b a = ret (- r) <->
             CompareFlowSpecKey a b = ret r).
Proof.
  rewrite (CompareFlowSpecKey_swap a b).
  destruct (CompareFlowSpecKey a b) as [r0|]; simpl; split.
  - split; discriminate.
  - intros r. split; intros E; injection E as E; f_equal; lia.
  - tauto.
  - intros r. split; discriminate.
Qed.

(** X3: the first position at which the types differ decides for the smaller
    type, whatever the two components and the positions after them hold. *)
Theorem CompareFlowSpecKey_type_position
    (pre_a pre_b ta tb : list FSComponent) (ca cb : FSComponent) :
  length pre_a = length pre_b -> length ta = length tb ->
  walk pre_a pre_b = ret line107 ->
  let a := {| Components := pre_a ++ ca :: ta |} in
  let b := {| Components := pre_b ++ cb :: tb |} in
  (Type_ ca < Type_ cb -> CompareFlowSpecKey a b = ret AHasPrecedence) /\
  (Type_ cb < Type_ ca -> CompareFlowSpecKey a b = ret BHasPrecedence).
Proof.
  intros E1 E2 W a b. subst a b. unfold CompareFlowSpecKey.
  rewrite (CompareFlowSpecKey_site_position _ _ _ _ _ _ E1 E2 W).
  simpl. split; intros H.
  - destruct (Z.ltb_spec (Type_ ca) (Type_ cb)); [reflexivity|lia].
  - destruct (Z.ltb_spec (Type_ ca) (Type_ cb)); [lia|].
    destruct (Z.ltb_spec (Type_ cb) (Type_ ca)); [reflexivity|lia].
Qed.

Lemma CompareFlowSpecKey_type_position_witness :
  CompareFlowSpecKey protoBehindWide sourceBehindNarrow = ret BHasPrecedence.
Proof.
  destruct (CompareFlowSpecKey_type_position
              [destination (prefix4 10 0 0 0 8)]
              [destination (prefix4 9 0 0 0 16)] [] []
              (rawComponent ComponentTypeIpProtocol [x06])
              {| Type_ := ComponentTypeSourcePrefix;
                 Prefix := None; Raw := [] |}
              eq_refl eq_refl eq_refl) as [_ H].
  apply H. reflexivity.
Defined.

Lemma walk_cons_site (ca cb : FSComponent) (ta tb : list FSComponent) :
  walk (ca :: ta) (cb :: tb) =
  match walk [ca] [cb] with
  | ret line107 => walk ta tb
  | r => r
  end.
Proof.
  simpl.
  repeat match goal with
  | |- context [if ?c then _ else _] => destruct c
  | |- context [match Prefix ?c with _ => _ end] => destruct (Prefix c)
  | |- context [match rawLoop ?x ?y with _ => _ end] => destruct (rawLoop x y)
  end; reflexivity.
Qed.

Lemma walk_single_panic (ca cb : FSComponent) :
  walk [ca] [cb] = panic <->
  Type_ ca = Type_ cb /\ isPrefixType (Type_ ca) = true /\
  (Prefix ca = None \/ Prefix cb = None).
Proof.
  simpl. split.
  - destruct (Z.ltb_spec (Type_ ca) (Type_ cb)) as [T1|T1];
      try discriminate.
    destruct (Z.ltb_spec (Type_ cb) (Type_ ca)) as [T2|T2];
      try discriminate.
    destruct (isPrefixType (Type_ ca)).
    + destruct (Prefix ca), (Prefix cb); intros P;
        try (split; [lia|split; auto]).
      repeat match goal with
      | P : context [if ?c then _ else _] |- _ => destruct c
      end; discriminate.
    + repeat match goal with
      | |- context [if ?c then _ else _] => destruct c
      | |- context [match rawLoop ?x ?y with _ => _ end] =>
          destruct (rawLoop x y)
      end; discriminate.
  - intros (ET & TP & N). rewrite <- ET, Z.ltb_irrefl, TP.
    destruct N as [-> | ->]; [reflexivity|]. now destruct (Prefix ca).
Qed.

Lemma walk_panic (acomps bcomps : list FSComponent) :
  length acomps = length bcomps ->
  walk acomps bcomps = panic ->
  nilPrefixReached {| Components := acomps |} {| Components := bcomps |}.
Proof.
  revert bcomps.
  induction acomps as [|ca acomps IH]; intros [|cb bcomps]; simpl length;
    try discriminate.
  intros L. injection L as L. rewrite walk_cons_site.
  destruct (walk [ca] [cb]) as [s|] eqn:W.
  - destruct s; try discriminate. intros P.
    destruct (IH bcomps L P)
      as (pre_a & pre_b & xa & xb & ta & tb & Ea & Eb & L1 & L2 & Wp & H).
    simpl in Ea, Eb. subst acomps bcomps.
    exists (ca :: pre_a), (cb :: pre_b), xa, xb, ta, tb.
    split; [reflexivity|]. split; [reflexivity|].
    split; [simpl; lia|]. split; [exact L2|].
    split; [|exact H]. rewrite walk_cons_site, W. exact Wp.
  - intros _. apply walk_single_panic in W.
    exists [], [], ca, cb, acomps, bcomps. simpl. tauto.
Qed.

(** X4: the call panics exactly when the two keys have the same number of
    components and the walk reaches, over undecided positions, two
    components of the same prefix type of which one has a nil prefix; in
    particular never when the numbers of components differ. *)
Theorem CompareFlowSpecKey_panics_iff (a b : FSComponentList) :
  CompareFlowSpecKey a b = panic <->
  length (Components a) = length (Components b) /\ nilPrefixReached a b.
Proof.
  unfold CompareFlowSpecKey. split.
  - destruct (CompareFlowSpecKey_site a b) as [s|] eqn:E; simpl;
      try discriminate.
    intros _. unfold CompareFlowSpecKey_site in E.
    destruct (Nat.ltb_spec (length (Components b)) (length (Components a)));
      try discriminate.
    destruct (Nat.ltb_spec (length (Components a)) (length (Components b)));
      try discriminate.
    assert (L : length (Components a) = length (Components b)) by lia.
    split; auto. destruct a, b. now apply walk_panic.
  - intros (_ & pre_a & pre_b & ca & cb & ta & tb & Ea & Eb & L1 & L2 & W
            & ET & TP & N).
    destruct a as [acomps], b as [bcomps]. simpl in Ea, Eb. subst.
    rewrite (CompareFlowSpecKey_site_position _ _ _ _ _ _ L1 L2 W).
    rewrite walk_cons_site.
    assert (P : walk [ca] [cb] = panic) by (apply walk_single_panic; tauto).
    now rewrite P.
Qed.

Lemma walk_single_undecided (ca cb : FSComponent) :
  walk [ca] [cb] = ret line107 <-> undecidedPosition ca cb.
Proof.
  unfold undecidedPosition. simpl. split.
  - destruct (Z.ltb_spec (Type_ ca) (Type_ cb)) as [T1|T1];
      try discriminate.
    destruct (Z.ltb_spec (Type_ cb) (Type_ ca)) as [T2|T2];
      try discriminate.
    assert (ET : Type_ ca = Type_ cb) by lia.
    destruct (isPrefixType (Type_ ca)).
    + destruct (Prefix ca) as [pa|], (Prefix cb) as [pb|]; try discriminate.
      rewrite !Z.gtb_ltb.
      destruct (Z.ltb_spec (netip.Bits pb) (netip.Bits pa)),
               (Z.ltb_spec (netip.Bits pa) (netip.Bits pb)),
               (Z.eqb_spec (netip.Bits pa) (netip.Bits pb));
        try lia; simpl;
        destruct (netip.Contains pb (netip.Addr_of pa)) eqn:C1;
        destruct (netip.Contains pa (netip.Addr_of pb)) eqn:C2;
        destruct (netip.Less (netip.Addr_of pa) (netip.Addr_of pb)) eqn:L1;
        destruct (netip.Less (netip.Addr_of pb) (netip.Addr_of pa)) eqn:L2;
        try discriminate; intros _;
        (split; [exact ET|]); (split; [discriminate|]); intros _;
        exists pa, pb; repeat split; auto; try lia;
        intros _; now apply Less_total.
    + destruct (Nat.eqb_spec (length (Raw ca)) (length (Raw cb))) as [EL|NL].
      * pose proof (rawLoop_rawOrder (Raw ca) (Raw cb)) as RO.
        rewrite EL, Nat.eqb_refl in RO.
        destruct (rawLoop (Raw ca) (Raw cb)); try discriminate.
        intros _. repeat split; auto; try discriminate.
        intros _. now apply rawOrder_zero.
      * destruct (rawLoop (Raw ca) (Raw cb)); try discriminate.
        destruct (Nat.ltb _ _); try discriminate.
        destruct (Nat.ltb _ _); discriminate.
  - intros (ET & HR & HP). rewrite <- ET, Z.ltb_irrefl.
    destruct (isPrefixType (Type_ ca)).
    + destruct (HP eq_refl) as (pa & pb & -> & -> & HE & HA & HB).
      rewrite !Z.gtb_ltb.
      destruct (Z.ltb_spec (netip.Bits pb) (netip.Bits pa)),
               (Z.ltb_spec (netip.Bits pa) (netip.Bits pb)),
               (Z.eqb_spec (netip.Bits pa) (netip.Bits pb));
        try lia; simpl.
      * now rewrite HA by lia.
      * now rewrite HB by lia.
      * now rewrite HE, Less_irrefl by lia.
    + now rewrite (HR eq_refl), Nat.eqb_refl, rawLoop_refl.
Qed.

Lemma walk_undecided (acomps bcomps : list FSComponent) :
  length acomps = length bcomps ->
  (walk acomps bcomps = ret line107 <->
   Forall2 undecidedPosition acomps bcomps).
Proof.
  revert bcomps.
  induction acomps as [|ca acomps IH]; intros [|cb bcomps]; simpl length;
    try discriminate.
  - intros _. simpl. split; auto.
  - intros L. injection L as L. rewrite walk_cons_site. split.
    + destruct (walk [ca] [cb]) as [s|] eqn:W; try discriminate.
      destruct s; try discriminate.
      intros T. constructor.
      * now apply walk_single_undecided.
      * now apply IH.
    + intros F. inversion F as [|? ? ? ? U F']; subst.
      apply walk_single_undecided in U. rewrite U. now apply IH.
Qed.

(** X5: the call returns Equal exactly when the two keys have the same number
    of components and every position is undecided: equal types with
    identical raw values, or with prefixes of the same length and address,
    or with prefixes of different length of which the shorter does not
    contain the longer one's address. *)
Theorem CompareFlowSpecKey_Equal_iff (a b : FSComponentList) :
  CompareFlowSpecKey a b = ret Equal <->
  Forall2 undecidedPosition (Components a) (Components b).
Proof.
  unfold CompareFlowSpecKey, CompareFlowSpecKey_site. split.
  - destruct (Nat.ltb_spec (length (Components b)) (length (Components a)));
      try discriminate.
    destruct (Nat.ltb_spec (length (Components a)) (length (Components b)));
      try discriminate.
    destruct (walk (Components a) (Components b)) as [s|] eqn:W;
      try discriminate.
    destruct s; try discriminate. intros _.
    apply walk_undecided; auto. lia.
  - intros F. pose proof (Forall2_length F) as L. rewrite L.
    rewrite Nat.ltb_irrefl.
    apply walk_undecided in F; auto. now rewrite F.
Qed.

(** ** Sorting on the insertion-sort path *)

Section InsertionFacts.

Context {A : Type}.
Variable less : A -> A -> go bool.

(** A slice in which no element is less than the one before it is left as
    it is. *)
Lemma insertionLoop_unchanged (rest sorted : list A) :
  sorted <> [] ->
  adjacent (fun x y => less y x = ret false) (sorted ++ rest) ->
  insertionLoop less sorted rest = ret (sorted ++ rest).
Proof.
  revert sorted. induction rest as [|x rest IH]; simpl; intros sorted N H.
  - now rewrite app_nil_r.
  - destruct (exists_last N) as (s & y & ->).
    rewrite rev_app_distr. simpl.
    rewrite (H s y x rest) by now rewrite <- app_assoc.
    simpl. rewrite rev_involutive.
    rewrite (IH ((s ++ [y]) ++ [x])).
    + now rewrite <- !app_assoc.
    + now destruct (s ++ [y]).
    + now rewrite <- !app_assoc in *.
Qed.

Lemma insertionSortLessFunc_unchanged (l : list A) :
  adjacent (fun x y => less y x = ret false) l ->
  insertionSortLessFunc A less l = ret l.
Proof.
  destruct l as [|x l]; simpl; auto.
  intros H. now apply (insertionLoop_unchanged l [x]).
Qed.

Variable P : A -> Prop.
Hypothesis less_returns :
  forall x y, P x -> P y -> exists b, less x y = ret b.

Lemma insertLeft_returns (x : A) (left : list A) :
  P x -> Forall P left -> exists out, insertLeft less x left = ret out.
Proof.
  intros Px. induction 1 as [|y left Py _ IH]; simpl; eauto.
  destruct (less_returns x y Px Py) as [[|] ->]; simpl; eauto.
  destruct IH as [l ->]. simpl. eauto.
Qed.

Lemma insertionLoop_returns (rest sorted : list A) :
  Forall P sorted -> Forall P rest ->
  exists out, insertionLoop less sorted rest = ret out.
Proof.
  revert sorted. induction rest as [|x rest IH]; simpl; intros sorted Hs Hr.
  - eauto.
  - inversion Hr as [|? ? Px Hr']; subst.
    destruct (insertLeft_returns x (rev sorted) Px) as [s I].
    { apply Forall_rev. exact Hs. }
    rewrite I. simpl. apply IH; auto.
    apply insertLeft_permutes in I.
    apply (Permutation_Forall I). constructor; auto.
    apply Forall_rev. exact Hs.
Qed.

Lemma insertionSortLessFunc_returns (l : list A) :
  Forall P l -> exists out, insertionSortLessFunc A less l = ret out.
Proof.
  destruct l as [|x l]; simpl; eauto.
  intros H. inversion H; subst. apply insertionLoop_returns; auto.
Qed.

End InsertionFacts.

Lemma adjacent_ordered {A : Type} (le : A -> A -> Prop) (l : list A) :
  adjacent le l ->
  (forall x y z, In x l -> In y l -> In z l -> le x y -> le y z -> le x z) ->
  ordered le l.
Proof.
  intros Adj T pre x mid. revert pre x.
  induction mid as [|m mid IH]; intros pre x y post E.
  - now apply (Adj pre x y post).
  - apply (T x m y).
    + rewrite E, in_app_iff. simpl. tauto.
    + rewrite E, in_app_iff. simpl. tauto.
    + rewrite E, in_app_iff. simpl. rewrite in_app_iff. simpl. tauto.
    + apply (Adj pre x m (mid ++ y :: post)). exact E.
    + apply (IH (pre ++ [x]) m y post).
      rewrite E, <- app_assoc. reflexivity.
Qed.

Lemma precedesOrEqual_less_false (x y : FSComponentList) :
  precedesOrEqual x y ->
  go_map (fun r => r <? 0) (CompareFlowSpecKey y x) = ret false.
Proof.
  intros (r & E & L). rewrite (CompareFlowSpecKey_swap x y), E. simpl.
  f_equal. apply Z.ltb_ge. lia.
Qed.

Lemma precedesOrEqual_trans (n : ComponentType -> Z)
    (x y z : FSComponentList) :
  uniformBits n x -> uniformBits n y -> uniformBits n z ->
  precedesOrEqual x y -> precedesOrEqual y z -> precedesOrEqual x z.
Proof.
  intros Ux Uy Uz (r1 & E1 & L1) (r2 & E2 & L2).
  destruct (CompareFlowSpecKey_value_trans n x y z r1 r2)
    as (r3 & E3 & L3 & _); auto.
  exists r3. auto.
Qed.

Lemma uniformBits_prefixesPresent (n : ComponentType -> Z)
    (a : FSComponentList) :
  uniformBits n a -> prefixesPresent a.
Proof.
  unfold uniformBits, prefixesPresent. apply Forall_impl.
  intros c H TP. destruct (H TP) as (p & -> & _). discriminate.
Qed.

Lemma CompareFlowSpecKey_returns (a b : FSComponentList) :
  prefixesPresent a -> prefixesPresent b ->
  exists r, go_map (fun r => r <? 0) (CompareFlowSpecKey a b) = ret r.
Proof.
  intros Ha Hb. destruct a as [acomps], b as [bcomps].
  unfold CompareFlowSpecKey, CompareFlowSpecKey_site. simpl Components.
  destruct (Nat.ltb _ _); simpl; eauto.
  destruct (Nat.ltb _ _); simpl; eauto.
  destruct (walk_returns acomps bcomps Ha Hb) as [s ->]. simpl. eauto.
Qed.

(** X8: for a slice of at most 12 keys, where [sort.Slice] is its insertion
    sort: a sort that returns gives a permutation of the input in which
    every key precedes or equals the next one; and the sort does return
    when every prefix component of every key carries a prefix. *)
Theorem SortFlowSpecs_adjacent (list : list FSComponentList) :
  (length list <= 12)%nat ->
  (forall out, SortFlowSpecs insertionSortLessFunc list = ret out ->
               Permutation list out /\ adjacent precedesOrEqual out) /\
  (Forall prefixesPresent list ->
   exists out, SortFlowSpecs insertionSortLessFunc list = ret out).
Proof.
  intros _. split.
  - intros out. apply SortFlowSpecs_insertion_adjacent.
  - intros H.
    apply (insertionSortLessFunc_returns
             (fun x y => go_map (fun r => r <? 0) (CompareFlowSpecKey x y))
             prefixesPresent CompareFlowSpecKey_returns list H).
Qed.

Lemma SortFlowSpecs_adjacent_witness :
  Permutation [net10_2; net9; net10_1] [net9; net10_1; net10_2] /\
  adjacent precedesOrEqual [net9; net10_1; net10_2].
Proof.
  destruct (SortFlowSpecs_adjacent [net10_2; net9; net10_1]) as [H _].
  - simpl. lia.
  - apply H. reflexivity.
Defined.

(** X9: for a slice of at most 12 keys: a slice in which every key precedes or
    equals the next one is returned as it is, and sorting the output of a
    sort again returns it unchanged. *)
Theorem SortFlowSpecs_idempotent (list out : list FSComponentList) :
  (length list <= 12)%nat ->
  (adjacent precedesOrEqual list ->
   SortFlowSpecs insertionSortLessFunc list = ret list) /\
  (SortFlowSpecs insertionSortLessFunc list = ret out ->
   SortFlowSpecs insertionSortLessFunc out = ret out).
Proof.
  intros _.
  assert (U : forall l, adjacent precedesOrEqual l ->
                        SortFlowSpecs insertionSortLessFunc l = ret l).
  { intros l H. unfold SortFlowSpecs.
    apply insertionSortLessFunc_unchanged.
    intros p x y q E. apply precedesOrEqual_less_false.
    now apply (H p x y q). }
  split; [apply U|].
  intros H. apply U. now apply SortFlowSpecs_insertion_adjacent in H.
Qed.

Lemma SortFlowSpecs_idempotent_witness :
  SortFlowSpecs insertionSortLessFunc [net9; net10_1; net10_2]
  = ret [net9; net10_1; net10_2].
Proof.
  destruct (SortFlowSpecs_idempotent [net10_2; net9; net10_1]
              [net9; net10_1; net10_2]) as [_ H].
  - simpl. lia.
  - apply H. reflexivity.
Defined.

(** X10: for a slice of at most 12 keys whose prefixes all have the length
    their component type asks for: the sort returns, and its output is a
    permutation of the input in which every key precedes or equals every
    key after it. *)
Theorem SortFlowSpecs_ordered_uniform (n : ComponentType -> Z)
    (list : list FSComponentList) :
  (length list <= 12)%nat ->
  Forall (uniformBits n) list ->
  exists out,
    SortFlowSpecs insertionSortLessFunc list = ret out /\
    Permutation list out /\ ordered precedesOrEqual out.
Proof.
  intros _ U.
  destruct (insertionSortLessFunc_returns
              (fun x y => go_map (fun r => r <? 0) (CompareFlowSpecKey x y))
              prefixesPresent CompareFlowSpecKey_returns list) as [out S].
  { revert U. apply Forall_impl. apply uniformBits_prefixesPresent. }
  exists out. split; [exact S|].
  destruct (SortFlowSpecs_insertion_adjacent list out S) as [Pm Adj].
  split; [exact Pm|].
  apply adjacent_ordered; auto.
  pose proof (Permutation_Forall Pm U) as Uo.
  rewrite Forall_forall in Uo.
  intros x y z Ix Iy Iz. apply (precedesOrEqual_trans n); auto.
Qed.

Lemma SortFlowSpecs_ordered_uniform_witness :
  exists out,
    SortFlowSpecs insertionSortLessFunc [net10_2; net9; net10_1] = ret out /\
    Permutation [net10_2; net9; net10_1] out /\ ordered precedesOrEqual out.
Proof.
  apply (SortFlowSpecs_ordered_uniform (fun _ => 16)).
  - simpl. lia.
  - repeat constructor; intros _; eexists; split; reflexivity.
Defined.

(** ** The feasibility chain, case by case *)

Lemma moreSpecificsLoop_app (best : UnicastRoute.t)
    (pre rest : list (option UnicastRoute.t)) :
  Forall (sameNeighborAS best) pre ->
  moreSpecificsLoop best (pre ++ rest) = moreSpecificsLoop best rest.
Proof.
  induction 1 as [|r pre (u & -> & E) _ IH]; simpl; auto.
  now rewrite E, Z.eqb_refl.
Qed.

Lemma moreSpecificsLoop_cases (best : UnicastRoute.t)
    (more : list (option UnicastRoute.t)) :
  (Forall (sameNeighborAS best) more /\
   moreSpecificsLoop best more = ret None) \/
  (exists pre u post,
      more = pre ++ Some u :: post /\ Forall (sameNeighborAS best) pre /\
      UnicastRoute.NeighborAS u <> UnicastRoute.NeighborAS best /\
      moreSpecificsLoop best more
      = ret (Some ErrMoreSpecificFromOtherNeighbor)) \/
  (exists pre post,
      more = pre ++ None :: post /\ Forall (sameNeighborAS best) pre /\
      moreSpecificsLoop best more = panic).
Proof.
  induction more as [|[u|] more IH]; simpl.
  - left. split; [constructor|reflexivity].
  - destruct (Z.eqb_spec (UnicastRoute.NeighborAS u)
                         (UnicastRoute.NeighborAS best)) as [E|N]; simpl.
    + assert (S : sameNeighborAS best (Some u)) by (exists u; auto).
      destruct IH as [[F R]|[(pre & v & post & -> & F & N & R)
                            |(pre & post & -> & F & R)]].
      * left. split; auto.
      * right. left. exists (Some u :: pre), v, post. auto.
      * right. right. exists (Some u :: pre), post. auto.
    + right. left. exists [], u, more. auto.
  - right. right. exists [], more. auto.
Qed.

Lemma leftMostASCheck_cases (fs : FlowSpecRoute.t) (best : UnicastRoute.t) :
  ((FlowSpecRoute.FromEBGP fs = true -> leftMostASAgree fs best) /\
   leftMostASCheck fs best = None) \/
  (FlowSpecRoute.FromEBGP fs = true /\ ~ leftMostASAgree fs best /\
   leftMostASCheck fs best = Some ErrLeftMostASMismatch).
Proof.
  unfold leftMostASCheck, leftMostASAgree.
  destruct (FlowSpecRoute.FromEBGP fs).
  - destruct (UnicastRoute.ASPath best) as [|b0 br].
    { right. repeat split; auto.
      intros (a & x & y & _ & E). discriminate. }
    destruct (FlowSpecRoute.ASPath fs) as [|f0 fr].
    { right. repeat split; auto.
      intros (a & x & y & E & _). discriminate. }
    destruct (Z.eqb_spec f0 b0) as [->|N]; simpl.
    + left. split; auto. intros _. exists b0, fr, br. auto.
    + right. repeat split; auto.
      intros (a & x & y & E1 & E2). congruence.
  - left. split; auto. discriminate.
Qed.

Lemma originatorAccepted_guard (fs : FlowSpecRoute.t) (cfg : option Config)
    (best : UnicastRoute.t) :
  originatorAccepted fs cfg best <->
  (EnableEmptyOrConfed (configOrDefault cfg)
   && negb (FlowSpecRoute.FromEBGP fs)
   && Nat.eqb (length (FlowSpecRoute.ASPath fs)) 0)
  || net.Equal (UnicastRoute.OriginatorID best)
               (FlowSpecRoute.OriginatorID fs) = true.
Proof.
  unfold originatorAccepted.
  destruct (EnableEmptyOrConfed (configOrDefault cfg)),
           (FlowSpecRoute.FromEBGP fs), (FlowSpecRoute.ASPath fs),
           (net.Equal _ _); simpl; split; auto;
    intros [(? & ? & ?)|?]; discriminate.
Qed.

(** The four ways through rules a and b. *)
Lemma ValidateFeasibility_cases (fs : FlowSpecRoute.t) (rib : UnicastRIB)
    (cfg : option Config) :
  (FlowSpecRoute.DestPrefix fs = None /\
   ValidateFeasibility fs rib cfg =
     if AllowNoDestPrefix (configOrDefault cfg) then ret None
     else ret (Some ErrNoDestinationPrefix)) \/
  (exists dst,
      FlowSpecRoute.DestPrefix fs = Some dst /\ BestPath rib dst = None /\
      ValidateFeasibility fs rib cfg = ret (Some ErrNoBestUnicast)) \/
  (exists dst best,
      FlowSpecRoute.DestPrefix fs = Some dst /\
      BestPath rib dst = Some best /\ ~ originatorAccepted fs cfg best /\
      ValidateFeasibility fs rib cfg
      = ret (Some ErrOriginatorValidationFailed)) \/
  (exists dst best,
      FlowSpecRoute.DestPrefix fs = Some dst /\
      BestPath rib dst = Some best /\ originatorAccepted fs cfg best /\
      ValidateFeasibility fs rib cfg = RuleCCheck fs rib best dst).
Proof.
  unfold ValidateFeasibility.
  destruct (FlowSpecRoute.DestPrefix fs) as [dst|].
  - right. destruct (BestPath rib dst) as [best|] eqn:B.
    + right. pose proof (originatorAccepted_guard fs cfg best) as G.
      destruct (EnableEmptyOrConfed (configOrDefault cfg)
                && negb (FlowSpecRoute.FromEBGP fs)
                && Nat.eqb (length (FlowSpecRoute.ASPath fs)) 0); simpl in G.
      * right. exists dst, best. repeat split; auto. now apply G.
      * destruct (net.Equal _ _); simpl.
        -- right. exists dst, best. repeat split; auto. now apply G.
        -- left. exists dst, best. repeat split; auto.
           intros H. apply G in H. discriminate.
    + left. exists dst. auto.
  - left. split; auto. now destruct (AllowNoDestPrefix _).
Qed.

(** The three ways through rule c and the left-most AS check. *)
Lemma RuleCCheck_cases (fs : FlowSpecRoute.t) (rib : UnicastRIB)
    (best : UnicastRoute.t) (dst : netip.Prefix) :
  (Forall (sameNeighborAS best) (MoreSpecifics rib dst) /\
   RuleCCheck fs rib best dst = ret (leftMostASCheck fs best)) \/
  (exists pre u post,
      MoreSpecifics rib dst = pre ++ Some u :: post /\
      Forall (sameNeighborAS best) pre /\
      UnicastRoute.NeighborAS u <> UnicastRoute.NeighborAS best /\
      RuleCCheck fs rib best dst
      = ret (Some ErrMoreSpecificFromOtherNeighbor)) \/
  (exists pre post,
      MoreSpecifics rib dst = pre ++ None :: post /\
      Forall (sameNeighborAS best) pre /\
      RuleCCheck fs rib best dst = panic).
Proof.
  unfold RuleCCheck.
  destruct (moreSpecificsLoop_cases best (MoreSpecifics rib dst))
    as [[F R]|[(pre & u & post & E & F & N & R)|(pre & post & E & F & R)]];
    rewrite R; simpl.
  - left. auto.
  - right. left. exists pre, u, post. auto.
  - right. right. exists pre, post. auto.
Qed.

Lemma ValidateFeasibility_through_b (fs : FlowSpecRoute.t) (rib : UnicastRIB)
    (cfg : option Config) (dst : netip.Prefix) (best : UnicastRoute.t) :
  FlowSpecRoute.DestPrefix fs = Some dst -> BestPath rib dst = Some best ->
  (originatorAccepted fs cfg best ->
   ValidateFeasibility fs rib cfg = RuleCCheck fs rib best dst) /\
  (~ originatorAccepted fs cfg best ->
   ValidateFeasibility fs rib cfg = ret (Some ErrOriginatorValidationFailed)).
Proof.
  intros D B. unfold ValidateFeasibility. rewrite D, B.
  pose proof (originatorAccepted_guard fs cfg best) as G.
  destruct (EnableEmptyOrConfed (configOrDefault cfg)
            && negb (FlowSpecRoute.FromEBGP fs)
            && Nat.eqb (length (FlowSpecRoute.ASPath fs)) 0); simpl in G.
  - split; auto. intros N. elim N. now apply G.
  - destruct (net.Equal _ _); simpl.
    + split; auto. intros N. elim N. now apply G.
    + split; auto. intros H. apply G in H. discriminate.
Qed.

Lemma RuleCCheck_same (fs : FlowSpecRoute.t) (rib : UnicastRIB)
    (best : UnicastRoute.t) (dst : netip.Prefix) :
  Forall (sameNeighborAS best) (MoreSpecifics rib dst) ->
  RuleCCheck fs rib best dst = ret (leftMostASCheck fs best).
Proof.
  intros F. unfold RuleCCheck.
  rewrite <- (app_nil_r (MoreSpecifics rib dst)).
  now rewrite (moreSpecificsLoop_app _ _ [] F).
Qed.

Lemma RuleCCheck_other (fs : FlowSpecRoute.t) (rib : UnicastRIB)
    (best : UnicastRoute.t) (dst : netip.Prefix)
    (pre post : list (option UnicastRoute.t)) (u : UnicastRoute.t) :
  MoreSpecifics rib dst = pre ++ Some u :: post ->
  Forall (sameNeighborAS best) pre ->
  UnicastRoute.NeighborAS u <> UnicastRoute.NeighborAS best ->
  RuleCCheck fs rib best dst = ret (Some ErrMoreSpecificFromOtherNeighbor).
Proof.
  intros E F N. unfold RuleCCheck.
  rewrite E, (moreSpecificsLoop_app _ _ _ F). simpl.
  destruct (Z.eqb_spec (UnicastRoute.NeighborAS u)
                       (UnicastRoute.NeighborAS best)); [contradiction|].
  reflexivity.
Qed.

Lemma RuleCCheck_nil (fs : FlowSpecRoute.t) (rib : UnicastRIB)
    (best : UnicastRoute.t) (dst : netip.Prefix)
    (pre post : list (option UnicastRoute.t)) :
  MoreSpecifics rib dst = pre ++ None :: post ->
  Forall (sameNeighborAS best) pre ->
  RuleCCheck fs rib best dst = panic.
Proof.
  intros E F. unfold RuleCCheck.
  now rewrite E, (moreSpecificsLoop_app _ _ _ F).
Qed.

Lemma leftMostASCheck_agree (fs : FlowSpecRoute.t) (best : UnicastRoute.t) :
  (FlowSpecRoute.FromEBGP fs = true -> leftMostASAgree fs best) ->
  leftMostASCheck fs best = None.
Proof.
  intros H. destruct (leftMostASCheck_cases fs best) as [[_ E]|(T & N & _)];
    auto. elim N. auto.
Qed.

Lemma leftMostASCheck_disagree (fs : FlowSpecRoute.t) (best : UnicastRoute.t) :
  FlowSpecRoute.FromEBGP fs = true -> ~ leftMostASAgree fs best ->
  leftMostASCheck fs best = Some ErrLeftMostASMismatch.
Proof.
  intros T N. destruct (leftMostASCheck_cases fs best) as [[H _]|(_ & _ & E)];
    auto. elim N. auto.
Qed.

(** Every way through the chain, with the result it gives. *)
Lemma ValidateFeasibility_outcomes (fs : FlowSpecRoute.t) (rib : UnicastRIB)
    (cfg : option Config) :
  (FlowSpecRoute.DestPrefix fs = None /\
   AllowNoDestPrefix (configOrDefault cfg) = true /\
   ValidateFeasibility fs rib cfg = ret None) \/
  (FlowSpecRoute.DestPrefix fs = None /\
   AllowNoDestPrefix (configOrDefault cfg) = false /\
   ValidateFeasibility fs rib cfg = ret (Some ErrNoDestinationPrefix)) \/
  (exists dst,
      FlowSpecRoute.DestPrefix fs = Some dst /\ BestPath rib dst = None /\
      ValidateFeasibility fs rib cfg = ret (Some ErrNoBestUnicast)) \/
  (exists dst best,
      FlowSpecRoute.DestPrefix fs = Some dst /\
      BestPath rib dst = Some best /\ ~ originatorAccepted fs cfg best /\
      ValidateFeasibility fs rib cfg
      = ret (Some ErrOriginatorValidationFailed)) \/
  (exists dst best pre u post,
      FlowSpecRoute.DestPrefix fs = Some dst /\
      BestPath rib dst = Some best /\ originatorAccepted fs cfg best /\
      MoreSpecifics rib dst = pre ++ Some u :: post /\
      Forall (sameNeighborAS best) pre /\
      UnicastRoute.NeighborAS u <> UnicastRoute.NeighborAS best /\
      ValidateFeasibility fs rib cfg
      = ret (Some ErrMoreSpecificFromOtherNeighbor)) \/
  (exists dst best pre post,
      FlowSpecRoute.DestPrefix fs = Some dst /\
      BestPath rib dst = Some best /\ originatorAccepted fs cfg best /\
      MoreSpecifics rib dst = pre ++ None :: post /\
      Forall (sameNeighborAS best) pre /\
      ValidateFeasibility fs rib cfg = panic) \/
  (exists dst best,
      passesRulesABC fs rib cfg dst best /\
      FlowSpecRoute.FromEBGP fs = true /\ ~ leftMostASAgree fs best /\
      ValidateFeasibility fs rib cfg = ret (Some ErrLeftMostASMismatch)) \/
  (exists dst best,
      passesRulesABC fs rib cfg dst best /\
      (FlowSpecRoute.FromEBGP fs = true -> leftMostASAgree fs best) /\
      ValidateFeasibility fs rib cfg = ret None).
Proof.
  destruct (ValidateFeasibility_cases fs rib cfg)
    as [(D & V)|[(dst & D & B & V)|[(dst & best & D & B & N & V)
       |(dst & best & D & B & O & V)]]].
  - destruct (AllowNoDestPrefix (configOrDefault cfg)) eqn:A; auto.
  - right. right. left. exists dst. auto.
  - right. right. right. left. exists dst, best. auto.
  - do 4 right. rewrite V.
    destruct (RuleCCheck_cases fs rib best dst)
      as [[F R]|[(pre & u & post & E & F & N & R)|(pre & post & E & F & R)]];
      rewrite R.
    + do 2 right.
      assert (P : passesRulesABC fs rib cfg dst best)
        by (unfold passesRulesABC; auto).
      destruct (leftMostASCheck_cases fs best) as [[H L]|(T & N & L)];
        rewrite L.
      * right. exists dst, best. auto.
      * left. exists dst, best. auto.
    + left. exists dst, best, pre, u, post. repeat split; auto.
    + right. left. exists dst, best, pre, post. repeat split; auto.
Qed.

Lemma ValidateFeasibility_rule_a_aux (fs : FlowSpecRoute.t) (rib : UnicastRIB)
    (cfg : option Config) :
  (FlowSpecRoute.DestPrefix fs = None ->
   ValidateFeasibility fs rib cfg =
     if AllowNoDestPrefix (configOrDefault cfg) then ret None
     else ret (Some ErrNoDestinationPrefix)) /\
  (forall dst, FlowSpecRoute.DestPrefix fs = Some dst ->
               BestPath rib dst = None ->
               ValidateFeasibility fs rib cfg = ret (Some ErrNoBestUnicast)).
Proof.
  unfold ValidateFeasibility. split.
  - intros ->. now destruct (AllowNoDestPrefix (configOrDefault cfg)).
  - intros dst -> ->. reflexivity.
Qed.

Ltac chain_outcomes fs rib cfg :=
  destruct (ValidateFeasibility_outcomes fs rib cfg)
    as [(?D & ?A & ?V)
       |[(?D & ?A & ?V)
       |[(?dst & ?D & ?B & ?V)
       |[(?dst & ?best & ?D & ?B & ?N & ?V)
       |[(?dst & ?best & ?pre & ?u & ?post & ?D & ?B & ?O & ?E & ?F & ?N & ?V)
       |[(?dst & ?best & ?pre & ?post & ?D & ?B & ?O & ?E & ?F & ?V)
       |[(?dst & ?best & ?P & ?T & ?N & ?V)
       |(?dst & ?best & ?P & ?H & ?V)]]]]]]].

(** X11: validation succeeds exactly when the rule has no destination prefix and
    AllowNoDestPrefix is set, or when it passes rules a to c and, if it
    came over eBGP, both AS_PATHs start with the same AS. *)
Theorem ValidateFeasibility_succeeds_iff (fs : FlowSpecRoute.t)
    (rib : UnicastRIB) (cfg : option Config) :
  ValidateFeasibility fs rib cfg = ret None <->
  (FlowSpecRoute.DestPrefix fs = None /\
   AllowNoDestPrefix (configOrDefault cfg) = true) \/
  (exists dst best,
      passesRulesABC fs rib cfg dst best /\
      (FlowSpecRoute.FromEBGP fs = true -> leftMostASAgree fs best)).
Proof.
  split.
  - intros R. chain_outcomes fs rib cfg; try congruence.
    + left. auto.
    + right. exists dst, best. auto.
  - intros [(D & A)|(dst & best & (D & B & O & M) & H)].
    + destruct (ValidateFeasibility_rule_a_aux fs rib cfg) as [R _].
      rewrite (R D), A. reflexivity.
    + destruct (ValidateFeasibility_through_b fs rib cfg dst best D B)
        as [R _].
      rewrite (R O), (RuleCCheck_same fs rib best dst M).
      now rewrite (leftMostASCheck_agree fs best H).
Qed.

Lemma Forall_same_middle (best : UnicastRoute.t)
    (pre post : list (option UnicastRoute.t)) (r : option UnicastRoute.t) :
  Forall (sameNeighborAS best) (pre ++ r :: post) -> sameNeighborAS best r.
Proof.
  intros F. apply Forall_app in F as [_ F]. now inversion F.
Qed.

(** X12: each rejection of rules a, b and of the left-most AS check is returned
    in exactly one situation: no destination prefix and no permission to go
    without; a destination prefix without best path; a best path whose
    originator check is neither skipped nor passed; rules a to c passed by
    an eBGP rule whose AS_PATH and the best path's do not both start with
    the same AS. *)
Theorem ValidateFeasibility_rejections_iff (fs : FlowSpecRoute.t)
    (rib : UnicastRIB) (cfg : option Config) :
  (ValidateFeasibility fs rib cfg = ret (Some ErrNoDestinationPrefix) <->
   FlowSpecRoute.DestPrefix fs = None /\
   AllowNoDestPrefix (configOrDefault cfg) = false) /\
  (ValidateFeasibility fs rib cfg = ret (Some ErrNoBestUnicast) <->
   exists dst, FlowSpecRoute.DestPrefix fs = Some dst /\
               BestPath rib dst = None) /\
  (ValidateFeasibility fs rib cfg = ret (Some ErrOriginatorValidationFailed)
   <->
   exists dst best, FlowSpecRoute.DestPrefix fs = Some dst /\
                    BestPath rib dst = Some best /\
                    ~ originatorAccepted fs cfg best) /\
  (ValidateFeasibility fs rib cfg = ret (Some ErrLeftMostASMismatch) <->
   exists dst best, passesRulesABC fs rib cfg dst best /\
                    FlowSpecRoute.FromEBGP fs = true /\
                    ~ leftMostASAgree fs best).
Proof.
  split; [|split; [|split]]; split.
  - intros R. chain_outcomes fs rib cfg; try congruence. auto.
  - intros (D & A).
    destruct (ValidateFeasibility_rule_a_aux fs rib cfg) as [R _].
    rewrite (R D), A. reflexivity.
  - intros R. chain_outcomes fs rib cfg; try congruence. exists dst. auto.
  - intros (dst & D & B).
    destruct (ValidateFeasibility_rule_a_aux fs rib cfg) as [_ R].
    exact (R dst D B).
  - intros R. chain_outcomes fs rib cfg; try congruence.
    exists dst, best. auto.
  - intros (dst & best & D & B & N).
    destruct (ValidateFeasibility_through_b fs rib cfg dst best D B)
      as [_ R].
    exact (R N).
  - intros R. chain_outcomes fs rib cfg; try congruence.
    exists dst, best. auto.
  - intros (dst & best & (D & B & O & M) & T & N).
    destruct (ValidateFeasibility_through_b fs rib cfg dst best D B)
      as [R _].
    rewrite (R O), (RuleCCheck_same fs rib best dst M).
    now rewrite (leftMostASCheck_disagree fs best T N).
Qed.

(** X13: ErrMoreSpecificFromOtherNeighbor is returned exactly when rules a and b
    are passed and the more-specific routes, read in order, show a route
    with another neighbor AS before any nil entry; when no entry is nil
    this is: some more-specific route has another neighbor AS than the best
    path, whatever the AS_PATHs are. *)
Theorem ValidateFeasibility_more_specific_iff (fs : FlowSpecRoute.t)
    (rib : UnicastRIB) (cfg : option Config) :
  (ValidateFeasibility fs rib cfg
   = ret (Some ErrMoreSpecificFromOtherNeighbor) <->
   exists dst best pre u post,
     FlowSpecRoute.DestPrefix fs = Some dst /\
     BestPath rib dst = Some best /\ originatorAccepted fs cfg best /\
     MoreSpecifics rib dst = pre ++ Some u :: post /\
     Forall (sameNeighborAS best) pre /\
     UnicastRoute.NeighborAS u <> UnicastRoute.NeighborAS best) /\
  (forall dst best,
      FlowSpecRoute.DestPrefix fs = Some dst ->
      BestPath rib dst = Some best -> originatorAccepted fs cfg best ->
      noNil (MoreSpecifics rib dst) ->
      (ValidateFeasibility fs rib cfg
       = ret (Some ErrMoreSpecificFromOtherNeighbor) <->
       exists u, In (Some u) (MoreSpecifics rib dst) /\
                 UnicastRoute.NeighborAS u
                 <> UnicastRoute.NeighborAS best)).
Proof.
  assert (Fwd : forall dst best pre u post,
             FlowSpecRoute.DestPrefix fs = Some dst ->
             BestPath rib dst = Some best -> originatorAccepted fs cfg best ->
             MoreSpecifics rib dst = pre ++ Some u :: post ->
             Forall (sameNeighborAS best) pre ->
             UnicastRoute.NeighborAS u <> UnicastRoute.NeighborAS best ->
             ValidateFeasibility fs rib cfg
             = ret (Some ErrMoreSpecificFromOtherNeighbor)).
  { intros dst best pre u post D B O E F N.
    destruct (ValidateFeasibility_through_b fs rib cfg dst best D B)
      as [R _].
    rewrite (R O). exact (RuleCCheck_other fs rib best dst pre post u E F N). }
  split.
  - split.
    + intros R. chain_outcomes fs rib cfg; try congruence.
      exists dst, best, pre, u, post. tauto.
    + intros (dst & best & pre & u & post & D & B & O & E & F & N).
      exact (Fwd dst best pre u post D B O E F N).
  - intros dst best D B O NN. split.
    + intros R. chain_outcomes fs rib cfg; try congruence.
      assert (dst0 = dst) by congruence. subst dst0.
      assert (best0 = best) by congruence. subst best0.
      exists u. split; auto. rewrite E. apply in_elt.
    + intros (u & I & N).
      destruct (RuleCCheck_cases fs rib best dst)
        as [[F _]|[(pre & v & post & E & F & N' & _)
                  |(pre & post & E & _ & _)]].
      * rewrite Forall_forall in F.
        destruct (F _ I) as (w & Ew & Sw). congruence.
      * exact (Fwd dst best pre v post D B O E F N').
      * unfold noNil in NN. rewrite E in NN.
        apply Forall_app in NN as [_ NN]. inversion NN. congruence.
Qed.

Lemma ValidateFeasibility_more_specific_iff_witness :
  ValidateFeasibility
    (rule (Some dst_192_88_99) true [65001] originator1)
    (ribWith (Some bestRoute)
       [Some otherRoute;
        Some strayRoute])
    None
  = ret (Some ErrMoreSpecificFromOtherNeighbor).
Proof.
  destruct (ValidateFeasibility_more_specific_iff
              (rule (Some dst_192_88_99) true [65001] originator1)
              (ribWith (Some bestRoute)
                 [Some otherRoute;
                  Some strayRoute])
              None) as [_ H].
  apply (H dst_192_88_99 bestRoute).
  - reflexivity.
  - reflexivity.
  - right. reflexivity.
  - repeat constructor; discriminate.
  - eexists. split.
    + right. left. reflexivity.
    + simpl. lia.
Defined.

(** X14: the call panics exactly when rules a and b are passed and the
    more-specific routes, read in order, show a nil entry before any route
    with another neighbor AS; so it returns whenever no entry is nil. *)
Theorem ValidateFeasibility_panics_iff (fs : FlowSpecRoute.t)
    (rib : UnicastRIB) (cfg : option Config) :
  (ValidateFeasibility fs rib cfg = panic <->
   exists dst best pre post,
     FlowSpecRoute.DestPrefix fs = Some dst /\
     BestPath rib dst = Some best /\ originatorAccepted fs cfg best /\
     MoreSpecifics rib dst = pre ++ None :: post /\
     Forall (sameNeighborAS best) pre) /\
  ((forall dst, noNil (MoreSpecifics rib dst)) ->
   exists e, ValidateFeasibility fs rib cfg = ret e).
Proof.
  split; [split|].
  - intros R. chain_outcomes fs rib cfg; try congruence.
    exists dst, best, pre, post. tauto.
  - intros (dst & best & pre & post & D & B & O & E & F).
    destruct (ValidateFeasibility_through_b fs rib cfg dst best D B)
      as [R _].
    rewrite (R O). exact (RuleCCheck_nil fs rib best dst pre post E F).
  - intros NN. chain_outcomes fs rib cfg; eauto.
    specialize (NN dst). unfold noNil in NN. rewrite E in NN.
    apply Forall_app in NN as [_ NN]. inversion NN. congruence.
Qed.

Lemma ValidateFeasibility_panics_iff_witness :
  exists e,
    ValidateFeasibility (rule (Some dst_192_88_99) false [] originator2)
      (ribWith (Some bestRoute) [Some otherRoute]) None = ret e.
Proof.
  destruct (ValidateFeasibility_panics_iff
              (rule (Some dst_192_88_99) false [] originator2)
              (ribWith (Some bestRoute) [Some otherRoute]) None) as [_ H].
  apply H. intros dst. repeat constructor. discriminate.
Defined.

Lemma moreSpecificsLoop_permutation (best : UnicastRoute.t)
    (more more' : list (option UnicastRoute.t)) :
  Permutation more more' -> noNil more ->
  moreSpecificsLoop best more = moreSpecificsLoop best more'.
Proof.
  unfold noNil.
  induction 1 as [|r l l' P IH|r s l|l l' l'' P1 IH1 P2 IH2]; intros NN.
  - reflexivity.
  - inversion NN as [|? ? Nr NN']; subst.
    destruct r as [u|]; [|congruence]. simpl.
    destruct (negb _); auto.
  - inversion NN as [|? ? Ns NN']; subst.
    inversion NN' as [|? ? Nr NN'']; subst.
    destruct r as [u|]; [|congruence]. destruct s as [v|]; [|congruence].
    simpl. destruct (negb _), (negb _); reflexivity.
  - rewrite IH1 by assumption. apply IH2.
    apply (Permutation_Forall P1 NN).
Qed.

(** X15: the order in which the RIB reports the more-specific routes does not
    matter: two RIBs with the same best paths whose more-specific routes
    are the same up to order, none of them nil, give the same result. *)
Theorem ValidateFeasibility_order_independent (fs : FlowSpecRoute.t)
    (rib rib' : UnicastRIB) (cfg : option Config) :
  (forall p, BestPath rib p = BestPath rib' p) ->
  (forall p, Permutation (MoreSpecifics rib p) (MoreSpecifics rib' p)) ->
  (forall p, noNil (MoreSpecifics rib p)) ->
  ValidateFeasibility fs rib cfg = ValidateFeasibility fs rib' cfg.
Proof.
  intros HB HP NN. unfold ValidateFeasibility, RuleCCheck.
  destruct (FlowSpecRoute.DestPrefix fs) as [dst|]; auto.
  rewrite <- (HB dst). destruct (BestPath rib dst) as [best|]; auto.
  now rewrite (moreSpecificsLoop_permutation best _ _ (HP dst) (NN dst)).
Qed.

Lemma ValidateFeasibility_order_independent_witness :
  ValidateFeasibility (rule (Some dst_192_88_99) false [65001] originator1)
    (ribWith (Some bestRoute) [Some otherRoute; Some strayRoute]) None
  = ValidateFeasibility (rule (Some dst_192_88_99) false [65001] originator1)
      (ribWith (Some bestRoute) [Some strayRoute; Some otherRoute]) None.
Proof.
  apply ValidateFeasibility_order_independent.
  - reflexivity.
  - intros p. apply perm_swap.
  - intros p. repeat constructor; discriminate.
Defined.

(** X16: setting EnableEmptyOrConfed changes the result only for rules that
    fail the originator check without it: a configuration with the flag
    off whose result is not ErrOriginatorValidationFailed gives the same
    result as any configuration with the same AllowNoDestPrefix. *)
Theorem ValidateFeasibility_relaxation_only_originator
    (fs : FlowSpecRoute.t) (rib : UnicastRIB) (cfg1 cfg2 : Config) :
  EnableEmptyOrConfed cfg1 = false ->
  AllowNoDestPrefix cfg1 = AllowNoDestPrefix cfg2 ->
  ValidateFeasibility fs rib (Some cfg1)
  <> ret (Some ErrOriginatorValidationFailed) ->
  ValidateFeasibility fs rib (Some cfg2)
  = ValidateFeasibility fs rib (Some cfg1).
Proof.
  unfold ValidateFeasibility; simpl. intros -> <-.
  destruct (FlowSpecRoute.DestPrefix fs) as [dst|]; auto.
  destruct (BestPath rib dst) as [best|]; auto. simpl.
  destruct (net.Equal _ _); simpl.
  - intros _. now destruct (_ && _ && _).
  - intros N. now elim N.
Qed.

Lemma ValidateFeasibility_relaxation_only_originator_witness :
  ValidateFeasibility (rule (Some dst_192_88_99) false [] originator1)
    (ribWith (Some bestRoute) [Some strayRoute]) (Some (config false true))
  = ValidateFeasibility (rule (Some dst_192_88_99) false [] originator1)
      (ribWith (Some bestRoute) [Some strayRoute])
      (Some (config false false)).
Proof.
  apply ValidateFeasibility_relaxation_only_originator.
  - reflexivity.
  - reflexivity.
  - discriminate.
Defined.

(** X17: what the chain reads of the configuration: a nil configuration and
    the ASPathPolicy apart, two configurations with the same
    EnableEmptyOrConfed give the same result when they also agree on
    AllowNoDestPrefix or the rule has a destination prefix. *)
Theorem ValidateFeasibility_config_use (fs : FlowSpecRoute.t)
    (rib : UnicastRIB) (cfg1 cfg2 : option Config) :
  EnableEmptyOrConfed (configOrDefault cfg1)
  = EnableEmptyOrConfed (configOrDefault cfg2) ->
  (FlowSpecRoute.DestPrefix fs = None ->
   AllowNoDestPrefix (configOrDefault cfg1)
   = AllowNoDestPrefix (configOrDefault cfg2)) ->
  ValidateFeasibility fs rib cfg1 = ValidateFeasibility fs rib cfg2.
Proof.
  unfold ValidateFeasibility. intros E A. rewrite E.
  destruct (FlowSpecRoute.DestPrefix fs) as [dst|]; auto.
  now rewrite (A eq_refl).
Qed.

Lemma ValidateFeasibility_config_use_witness :
  ValidateFeasibility (rule (Some dst_192_88_99) true [65001] originator1)
    (ribWith (Some bestRoute) []) None
  = ValidateFeasibility (rule (Some dst_192_88_99) true [65001] originator1)
      (ribWith (Some bestRoute) [])
      (Some {| AllowNoDestPrefix := true;
               EnableEmptyOrConfed := true;
               ASPathPolicy_ := Some (fun _ => false) |}).
Proof.
  apply ValidateFeasibility_config_use.
  - reflexivity.
  - discriminate.
Defined.

(** ** The comparator as the first deciding position *)

Lemma walk_first_decision (acomps bcomps : list FSComponent) (r : Z) :
  length acomps = length bcomps -> r <> 0 ->
  go_map site_value (walk acomps bcomps) = ret r ->
  exists pre_a pre_b ca cb ta tb,
    acomps = pre_a ++ ca :: ta /\ bcomps = pre_b ++ cb :: tb /\
    Forall2 undecidedPosition pre_a pre_b /\ length ta = length tb /\
    comparePosition ca cb = ret r.
Proof.
  revert bcomps.
  induction acomps as [|ca acomps IH]; intros [|cb bcomps]; simpl length;
    try discriminate.
  - intros _ N E. simpl in E. injection E as E. unfold Equal in E. lia.
  - intros L N. injection L as L. rewrite walk_cons.
    destruct (comparePosition ca cb) as [d|] eqn:P; simpl; try discriminate.
    destruct (Z.eqb_spec d 0) as [->|ND].
    + intros E.
      destruct (IH bcomps L N E)
        as (pre_a & pre_b & xa & xb & ta & tb & -> & -> & F & L2 & Px).
      exists (ca :: pre_a), (cb :: pre_b), xa, xb, ta, tb.
      repeat split; auto. constructor; auto.
      apply walk_single_undecided. unfold comparePosition in P.
      destruct (walk [ca] [cb]) as [s|]; try discriminate.
      simpl in P. injection P as P. destruct s; try discriminate P.
      reflexivity.
    + intros E. injection E as ->.
      exists [], [], ca, cb, acomps, bcomps. repeat split; auto.
Qed.

(** X6: for two keys with the same number of components, a result other than
    Equal is the result of comparing alone, as two one-component keys, the
    components of the first position that is not undecided. *)
Theorem CompareFlowSpecKey_first_decision (a b : FSComponentList) (r : Z) :
  r <> Equal ->
  length (Components a) = length (Components b) ->
  (CompareFlowSpecKey a b = ret r <->
   exists pre_a pre_b ca cb ta tb,
     Components a = pre_a ++ ca :: ta /\ Components b = pre_b ++ cb :: tb /\
     Forall2 undecidedPosition pre_a pre_b /\ length ta = length tb /\
     CompareFlowSpecKey {| Components := [ca] |} {| Components := [cb] |}
     = ret r).
Proof.
  intros N L. destruct a as [acomps], b as [bcomps]. simpl in *.
  unfold CompareFlowSpecKey at 1.
  rewrite (CompareFlowSpecKey_site_walk _ _ L). split.
  - intros E. exact (walk_first_decision acomps bcomps r L N E).
  - intros (pre_a & pre_b & ca & cb & ta & tb & -> & -> & F & L2 & E).
    pose proof (Forall2_length F) as L1.
    apply walk_undecided in F; auto.
    rewrite (walk_app _ _ _ _ L1 F), walk_cons.
    unfold CompareFlowSpecKey in E.
    rewrite (CompareFlowSpecKey_site_walk [ca] [cb] eq_refl) in E.
    unfold comparePosition. rewrite E. simpl.
    destruct (Z.eqb_spec r 0); [contradiction|reflexivity].
Qed.

Lemma undecided_sameContent (n : ComponentType -> Z) (ca cb : FSComponent) :
  uniformBits n {| Components := [ca; cb] |} ->
  (undecidedPosition ca cb <-> sameContent ca cb).
Proof.
  unfold uniformBits; simpl. intros U.
  inversion U as [|? ? Ua U']; subst. inversion U' as [|? ? Ub _]; subst.
  unfold undecidedPosition, sameContent. split.
  - intros (ET & HR & HP). split; auto.
    destruct (isPrefixType (Type_ ca)) eqn:TP; auto.
    destruct (HP eq_refl) as (pa & pb & Pa & Pb & HE & _).
    destruct (Ua eq_refl) as (pa' & Pa' & Ba).
    destruct Ub as (pb' & Pb' & Bb); [congruence|].
    assert (pa' = pa) by congruence. assert (pb' = pb) by congruence.
    subst pa' pb'. rewrite Pa, Pb. f_equal.
    assert (EB : netip.Bits pa = netip.Bits pb) by congruence.
    specialize (HE EB). unfold netip.Bits in EB. unfold netip.Addr_of in HE.
    destruct pa, pb; simpl in *. f_equal; [assumption|lia].
  - intros (ET & H). split; auto.
    destruct (isPrefixType (Type_ ca)) eqn:TP.
    + split; [discriminate|]. intros _.
      destruct (Ua eq_refl) as (pa & Pa & _).
      exists pa, pa. rewrite <- H. repeat split; auto; lia.
    + split; auto. discriminate.
Qed.

(** X7: on keys whose prefixes all have the length their component type asks
    for, Equal means the same content: the same types in the same order,
    each with the same prefix or the same raw value. *)
Theorem CompareFlowSpecKey_Equal_uniform (n : ComponentType -> Z)
    (a b : FSComponentList) :
  uniformBits n a -> uniformBits n b ->
  (CompareFlowSpecKey a b = ret Equal <->
   Forall2 sameContent (Components a) (Components b)).
Proof.
  destruct a as [acomps], b as [bcomps]. unfold uniformBits; simpl.
  intros Ua Ub.
  assert (S : Forall2 undecidedPosition acomps bcomps <->
              Forall2 sameContent acomps bcomps).
  { revert bcomps Ub. induction Ua as [|ca acomps Uca Ua IH];
      intros bcomps Ub.
    - split; intros F; inversion F; constructor.
    - split; intros F; inversion F as [|? cb ? bcomps' H F']; subst;
        inversion Ub as [|? ? Ucb Ub']; subst; constructor;
        try (apply (undecided_sameContent n ca cb); auto;
             unfold uniformBits; simpl; auto);
        now apply (IH bcomps'). }
  rewrite <- S. clear S.
  unfold CompareFlowSpecKey, CompareFlowSpecKey_site; simpl. split.
  - destruct (Nat.ltb_spec (length bcomps) (length acomps));
      try discriminate.
    destruct (Nat.ltb_spec (length acomps) (length bcomps));
      try discriminate.
    destruct (walk acomps bcomps) as [s|] eqn:W; try discriminate.
    destruct s; try discriminate. intros _.
    apply walk_undecided; auto. lia.
  - intros F. pose proof (Forall2_length F) as L. rewrite L.
    rewrite Nat.ltb_irrefl.
    apply walk_undecided in F; auto. now rewrite F.
Qed.

Lemma CompareFlowSpecKey_Equal_uniform_witness :
  CompareFlowSpecKey net9 net9 = ret Equal <->
  Forall2 sameContent (Components net9) (Components net9).
Proof.
  apply (CompareFlowSpecKey_Equal_uniform (fun _ => 16));
    repeat constructor; intros _; eexists; split; reflexivity.
Defined.

Lemma CompareFlowSpecKey_first_decision_witness :
  CompareFlowSpecKey srcWide srcNarrow = ret BHasPrecedence <->
  exists pre_a pre_b ca cb ta tb,
    Components srcWide = pre_a ++ ca :: ta /\
    Components srcNarrow = pre_b ++ cb :: tb /\
    Forall2 undecidedPosition pre_a pre_b /\ length ta = length tb /\
    CompareFlowSpecKey {| Components := [ca] |} {| Components := [cb] |}
    = ret BHasPrecedence.
Proof.
  apply (CompareFlowSpecKey_first_decision srcWide srcNarrow BHasPrecedence).
  - discriminate.
  - reflexivity.
Defined.

(** ** Instances of the characterisations *)

Lemma CompareFlowSpecKey_swap_outcomes_witness :
  CompareFlowSpecKey nilPrefixKey net9 = panic /\
  CompareFlowSpecKey srcNarrow srcWide = ret (- BHasPrecedence).
Proof.
  split.
  - apply (CompareFlowSpecKey_swap_outcomes net9 nilPrefixKey). reflexivity.
  - apply (CompareFlowSpecKey_swap_outcomes srcWide srcNarrow). reflexivity.
Defined.

Lemma CompareFlowSpecKey_panics_iff_witness :
  length (Components net9) = length (Components nilPrefixKey) /\
  nilPrefixReached net9 nilPrefixKey.
Proof.
  apply (CompareFlowSpecKey_panics_iff net9 nilPrefixKey). reflexivity.
Defined.

Lemma CompareFlowSpecKey_Equal_iff_witness :
  Forall2 undecidedPosition (Components net10) (Components net9).
Proof.
  apply (CompareFlowSpecKey_Equal_iff net10 net9). reflexivity.
Defined.

Lemma ValidateFeasibility_succeeds_iff_witness :
  (FlowSpecRoute.DestPrefix (rule (Some dst_192_88_99) true [65001] originator1)
   = None /\ AllowNoDestPrefix (configOrDefault None) = true) \/
  (exists dst best,
      passesRulesABC (rule (Some dst_192_88_99) true [65001] originator1)
        (ribWith (Some bestRoute) [Some otherRoute]) None dst best /\
      (FlowSpecRoute.FromEBGP
         (rule (Some dst_192_88_99) true [65001] originator1) = true ->
       leftMostASAgree (rule (Some dst_192_88_99) true [65001] originator1)
         best)).
Proof.
  apply (ValidateFeasibility_succeeds_iff
           (rule (Some dst_192_88_99) true [65001] originator1)
           (ribWith (Some bestRoute) [Some otherRoute]) None).
  reflexivity.
Defined.

Lemma ValidateFeasibility_rejections_iff_witness :
  exists dst best,
    FlowSpecRoute.DestPrefix
      (rule (Some dst_192_88_99) true [65001] originator2) = Some dst /\
    BestPath (ribWith (Some bestRoute) [None]) dst = Some best /\
    ~ originatorAccepted (rule (Some dst_192_88_99) true [65001] originator2)
        None best.
Proof.
  destruct (ValidateFeasibility_rejections_iff
              (rule (Some dst_192_88_99) true [65001] originator2)
              (ribWith (Some bestRoute) [None]) None) as (_ & _ & H & _).
  apply H. reflexivity.
Defined.
